(** * Huntarr: the Radarr upgrade cycle, the cycle-reset route and the
    Prowlarr connection test

  A shallow embedding of

  - [src/primary/apps/radarr/upgrade.py]
    ([should_delay_movie_search], [process_cutoff_upgrades]),
  - [src/primary/web_server.py] ([reset_app_cycle]),
  - [src/primary/apps/prowlarr_routes.py] ([test_connection]),

  followed by the properties of the specification that concern them.
  Collaborators whose code lives elsewhere ([radarr_api], [stats_manager],
  [stateful_manager], [parse_date], the database, [requests], [socket])
  are taken as oracles: every statement quantifies over all of them. *)

From Stdlib Require Import ZArith Lia.
From stdpp Require Import base list strings gmap pretty.

(** ** Python values that cross the modelled interfaces *)

Inductive pyval :=
| VNone
| VBool (b : bool)
| VInt (z : Z)
| VStr (s : string).

(** Python truthiness, as used by [if x:] and [not x]. *)
Definition truthy (v : pyval) : bool :=
match v with
| VNone => false
| VBool b => b
| VInt z => negb (z =? 0)%Z
| VStr s => negb (String.eqb s "")
end.

(** [d.get(key, default)] on a dict held as a finite map. *)
Definition dict_get (d : gmap string pyval) (key : string) (dflt : pyval) : pyval :=
default dflt (d !! key).

(** The result of a call that may raise: a value or the exception. *)
Inductive outcome (E A : Type) :=
| Returned (a : A)
| Raised (e : E).
Arguments Returned {E A} a.
Arguments Raised {E A} e.

(** ** [datetime]: aware datetimes as UTC instants

  A timezone-aware [datetime] is modelled by its instant, in microseconds
  since 0001-01-01T00:00:00Z.  The library represents the years 1 to 9999
  only, and a [timedelta] at most 999999999 days long; outside it raises
  [OverflowError]. *)
Module datetime.

Definition usec_per_day : Z := 86400000000.

(** [date.max.toordinal()] days are representable. *)
Definition max_instant : Z := 3652059 * usec_per_day - 1.

(** [datetime.timedelta(days=n)]; [None] stands for [OverflowError]. *)
Definition timedelta (days : Z) : option Z :=
  if (Z.abs days <=? 999999999)%Z then Some (days * usec_per_day)%Z else None.

(** [d + delta]; [None] stands for [OverflowError]. *)
Definition add (d delta : Z) : option Z :=
  let r := (d + delta)%Z in
  if ((0 <=? r) && (r <=? max_instant))%Z then Some r else None.

End datetime.

(** ** [random.sample]

  The library call [random.sample(population, k)]: [k] successive draws
  without replacement, [ValueError] when [k] is negative or larger than
  the population.  The random source is injected as the list of raw
  draws, each reduced modulo the number of candidates still in the pool. *)
Module random.

Fixpoint draw_without_replacement {A} (pool : list A) (k : nat) (draws : list nat)
  : list A :=
  match k with
  | O => []
  | S k' =>
      let j := (hd 0 draws) `mod` length pool in
      match pool !! j with
      | Some x => x :: draw_without_replacement (delete j pool) k' (tl draws)
      | None => []
      end
  end.

(** [None] stands for [ValueError("Sample larger than population or is
    negative")]. *)
Definition sample {A} (population : list A) (k : Z) (draws : list nat)
  : option (list A) :=
  if ((0 <=? k) && (k <=? Z.of_nat (length population)))%Z
  then Some (draw_without_replacement population (Z.to_nat k) draws)
  else None.

End random.

(** ** [src/primary/apps/radarr/upgrade.py] *)
Module Radarr.

(** A movie as returned by the Radarr API: the keys the cycle reads. *)
Record movie := {
  id : Z;
  title : string;
  year : Z;
  releaseDate : option string;
}.

#[global] Instance movie_eq_dec : EqDecision movie.
Proof. solve_decision. Defined.

(** The instance's [app_settings], after the defaults of [.get]. *)
Record app_settings := {
  api_url : string;
  api_key : string;
  monitored_only : bool;
  hunt_upgrade_movies : Z;
  skip_future_releases : bool;
  process_no_release_dates : bool;
  release_date_delay_days : Z;
  instance_name : option string;
  name : option string;
}.

(** [app_settings.get("instance_name", app_settings.get("name", "Radarr Default"))] *)
Definition get_instance_name (s : app_settings) : string :=
  default (default "Radarr Default" (name s)) (instance_name s).

(** Answer of [check_hourly_cap_exceeded]: a boolean, or an exception,
    which the loop logs and ignores. *)
Inductive cap_answer :=
  | CapAnswer (exceeded : bool)
  | CapError.

(** The calls the cycle makes on its collaborators, with their answers. *)
Inductive call :=
  | GetCutoffUnmetMovies (api_url api_key : string) (api_timeout : Z)
      (monitored_only : bool) (count : nat)
  | StopCheck (stop : bool)
  | CheckHourlyCap (app : string) (answer : cap_answer)
  | MovieSearch (movie_id : Z) (ok : bool)
  | AddProcessedId (app instance movie_id : string)
  | IncrementStatOnly (app stat : string)
  | TagProcessedMovie (movie_id : Z) (tag : string) (ok : bool)
  | LogProcessedMedia (app media_name : string) (movie_id : Z)
      (instance action : string).

(** The collaborators of one cycle.  What an effectful collaborator
    answers may depend on every call made so far. *)
Record collaborators := {
  parse_date : string → option Z;
  (** the clock read once by the future-release filter *)
  now : Z;
  (** the clock read by [should_delay_movie_search] for the i-th movie of
      the delay loop *)
  current_time : nat → Z;
  api_timeout : Z;
  tag_processed_items : bool;
  get_custom_tag : string;
  get_cutoff_unmet_movies_random_page :
    string → string → Z → bool → nat → option (list movie);
  is_processed : string → string → string → bool;
  stop_check : list call → bool;
  check_hourly_cap_exceeded : list call → string → cap_answer;
  movie_search : list call → Z → bool;
  tag_processed_movie : list call → Z → string → bool;
}.

(** *** [should_delay_movie_search] *)

(** [release_date + datetime.timedelta(days=delay_days)] *)
Definition search_start_time (release_date delay_days : Z) : option Z :=
  delta ← datetime.timedelta delay_days; datetime.add release_date delta.

Definition should_delay_movie_search (parse_date : string → option Z)
    (current_time : Z) (release_date_str : option string) (delay_days : Z) : bool :=
  if (delay_days <=? 0)%Z then false
  else match release_date_str with
       | None | Some "" => false
       | Some s =>
           match parse_date s with
           | None => false
           | Some release_date =>
               match search_start_time release_date delay_days with
               | Some start => (current_time <? start)%Z
               | None => false   (* [except Exception]: don't delay *)
               end
           end
       end.

(** *** The candidate filters of [process_cutoff_upgrades] *)

(** The body of the loop at lines 114-147: is the movie appended to
    [filtered_movies]? *)
Definition keeps_release (env : collaborators) (s : app_settings) (m : movie) : bool :=
  match releaseDate m with
  | None | Some "" => process_no_release_dates s
  | Some release_date_str =>
      match parse_date env release_date_str with
      | Some release_date => negb (now env <? release_date)%Z
      | None => process_no_release_dates s
      end
  end.

Definition filter_future_releases (env : collaborators) (s : app_settings)
    (upgrade_eligible_data : list movie) : list movie :=
  if skip_future_releases s
  then filter (λ m, Is_true (keeps_release env s m)) upgrade_eligible_data
  else upgrade_eligible_data.

(** The loop at lines 163-172, entered with its [i]-th movie first. *)
Fixpoint delay_loop (env : collaborators) (delay_days : Z) (i : nat)
    (upgrade_eligible_data : list movie) : list movie :=
  match upgrade_eligible_data with
  | [] => []
  | m :: rest =>
      if should_delay_movie_search (parse_date env) (current_time env i)
           (releaseDate m) delay_days
      then delay_loop env delay_days (S i) rest
      else m :: delay_loop env delay_days (S i) rest
  end.

Definition apply_release_date_delay (env : collaborators) (s : app_settings)
    (upgrade_eligible_data : list movie) : list movie :=
  if (0 <? release_date_delay_days s)%Z
  then delay_loop env (release_date_delay_days s) 0 upgrade_eligible_data
  else upgrade_eligible_data.

(** The release date the filters work with: the [releaseDate] string is
    present, not empty, and [parse_date] returns a datetime for it. *)
Definition parsed_release_date (env : collaborators) (m : movie) : option Z :=
  match releaseDate m with
  | None | Some "" => None
  | Some release_date_str => parse_date env release_date_str
  end.

(** [is_processed("radarr", instance_name, str(movie.get("id")))] *)
Definition already_processed (env : collaborators) (s : app_settings) (m : movie) : bool :=
  is_processed env "radarr" (get_instance_name s) (pretty (id m)).

Definition filter_unprocessed (env : collaborators) (s : app_settings)
    (upgrade_eligible_data : list movie) : list movie :=
  filter (λ m, Is_true (negb (already_processed env s m))) upgrade_eligible_data.

(** The list [upgrade_eligible_data] as it stands at line 178. *)
Definition date_filtered (env : collaborators) (s : app_settings)
    (fetched : list movie) : list movie :=
  apply_release_date_delay env s (filter_future_releases env s fetched).

(** [unprocessed_movies]: the pool the sample is drawn from. *)
Definition unprocessed_movies (env : collaborators) (s : app_settings)
    (fetched : list movie) : list movie :=
  filter_unprocessed env s (date_filtered env s fetched).

(** [random.sample(unprocessed_movies, min(hunt_upgrade_movies, len(unprocessed_movies)))] *)
Definition select_movies (s : app_settings) (unprocessed : list movie)
    (draws : list nat) : option (list movie) :=
  random.sample unprocessed
    (Z.min (hunt_upgrade_movies s) (Z.of_nat (length unprocessed))) draws.

(** *** The processing loop *)

(** Calls thread the log of the calls made so far. *)
Definition M (A : Type) : Type := list call → A * list call.

Definition ret {A} (a : A) : M A := λ log, (a, log).

Definition bind {A B} (c : M A) (k : A → M B) : M B :=
  λ log, let '(a, log') := c log in k a log'.

Notation "'let*' x ':=' c 'in' k" := (bind c (λ x, k))
  (at level 10, x name, c at level 100, k at level 200).
Notation "c ;; k" := (bind c (λ _, k))
  (at level 100, k at level 200, right associativity).

(** A call whose answer [answer log] is recorded as [record answer]. *)
Definition ask {A} (answer : list call → A) (record : A → call) : M A :=
  λ log, let a := answer log in (a, log ++ [record a]).

Definition tell (c : call) : M unit := λ log, (tt, log ++ [c]).

(** The two local variables the loop updates. *)
Record loop_state := {
  processed_count : nat;
  processed_something : bool;
}.

(** How the [for] loop was left: by exhausting the list or through one of
    its two [break]s. *)
Inductive loop_exit :=
  | Exhausted
  | StopRequested
  | CapReached.

(** Lines 230-251: the effects of a search that was accepted. *)
Definition record_success (env : collaborators) (s : app_settings) (m : movie)
    (st : loop_state) : M loop_state :=
  tell (AddProcessedId "radarr" (get_instance_name s) (pretty (id m))) ;;
  tell (IncrementStatOnly "radarr" "upgraded") ;;
  (if tag_processed_items env
   then ask (λ log, tag_processed_movie env log (id m) (get_custom_tag env))
            (TagProcessedMovie (id m) (get_custom_tag env)) ;;
        ret tt
   else ret tt) ;;
  tell (LogProcessedMedia "radarr" (title m +:+ " (" +:+ pretty (year m) +:+ ")")
          (id m) (get_instance_name s) "upgrade") ;;
  ret {| processed_count := S (processed_count st); processed_something := true |}.

(** Lines 218-253: the search for one movie and the record of its outcome. *)
Definition search_movie (env : collaborators) (s : app_settings) (m : movie)
    (st : loop_state) : M loop_state :=
  let* search_result := ask (λ log, movie_search env log (id m)) (MovieSearch (id m)) in
  if search_result then record_success env s m st else ret st.

(** Lines 204-253. *)
Fixpoint process_movies (env : collaborators) (s : app_settings)
    (movies_to_process : list movie) (st : loop_state) : M (loop_state * loop_exit) :=
  match movies_to_process with
  | [] => ret (st, Exhausted)
  | m :: rest =>
      let* stop := ask (stop_check env) StopCheck in
      if stop then ret (st, StopRequested)
      else
        let* cap := ask (λ log, check_hourly_cap_exceeded env log "radarr")
                      (CheckHourlyCap "radarr") in
        match cap with
        | CapAnswer true => ret (st, CapReached)
        | CapAnswer false | CapError =>
            let* st' := search_movie env s m st in
            process_movies env s rest st'
        end
  end.

Inductive exn :=
  | ValueError (msg : string).

(** [str.strip()] on ASCII text. *)
Definition is_space (a : Ascii.ascii) : bool :=
  let n := Ascii.nat_of_ascii a in
  ((9 <=? n) && (n <=? 13)) || ((28 <=? n) && (n <=? 32)).

Fixpoint lstrip (s : string) : string :=
  match s with
  | String a s' => if is_space a then lstrip s' else s
  | EmptyString => EmptyString
  end.

Fixpoint rstrip (s : string) : string :=
  match s with
  | EmptyString => EmptyString
  | String a s' =>
      match rstrip s' with
      | EmptyString => if is_space a then EmptyString else String a EmptyString
      | r => String a r
      end
  end.

Definition strip (s : string) : string := rstrip (lstrip s).

(** Line 96: what [get_cutoff_unmet_movies_random_page] is called with, and
    what it answers. *)
Definition fetch_call (env : collaborators) (s : app_settings) : call :=
  GetCutoffUnmetMovies (strip (api_url s)) (strip (api_key s))
    (api_timeout env) (monitored_only s) 50.

Definition fetched_movies (env : collaborators) (s : app_settings) : option (list movie) :=
  get_cutoff_unmet_movies_random_page env (strip (api_url s)) (strip (api_key s))
    (api_timeout env) (monitored_only s) 50.

Definition fetch (env : collaborators) (s : app_settings) : M (option (list movie)) :=
  ask (λ _, fetched_movies env s) (λ _, fetch_call env s).

(** Lines 201-202: [processed_count = 0], [processed_something = False]. *)
Definition initial_state : loop_state :=
  {| processed_count := 0; processed_something := false |}.

(** [process_cutoff_upgrades(app_settings, stop_check)]: the value returned
    or the exception raised, and the calls made. *)
Definition process_cutoff_upgrades (env : collaborators) (s : app_settings)
    (draws : list nat) : M (outcome exn bool) :=
  let* upgrade_eligible_data := fetch env s in
  match upgrade_eligible_data with
  | None | Some [] => ret (Returned false)
  | Some fetched =>
      match date_filtered env s fetched with
      | [] => ret (Returned false)
      | remaining =>
          match filter_unprocessed env s remaining with
          | [] => ret (Returned false)
          | unprocessed =>
              match select_movies s unprocessed draws with
              | None =>
                  ret (Raised (ValueError "Sample larger than population or is negative"))
              | Some movies_to_process =>
                  let* r := process_movies env s movies_to_process initial_state in
                  ret (Returned (processed_something (fst r)))
              end
          end
      end
  end.

(** The movies searched for, and the ids marked processed, in a log. *)
Definition searched (log : list call) : list Z :=
  omap (λ c, match c with MovieSearch i _ => Some i | _ => None end) log.

Definition marked (log : list call) : list string :=
  omap (λ c, match c with AddProcessedId _ _ i => Some i | _ => None end) log.

End Radarr.

(** ** [src/primary/web_server.py]: the cycle-reset route *)
Module WebServer.

Definition known_apps : list string :=
  ["sonarr"; "radarr"; "lidarr"; "readarr"; "whisparr"; "eros"; "swaparr"].

(** What the route reads and calls. *)
Record world := {
  (** [load_settings("swaparr")]: a dict, or [None] *)
  load_swaparr_settings : option (gmap string pyval);
  (** [settings_manager.get_configured_apps()] *)
  get_configured_apps : list string;
  (** [get_database()]; [None] when it raises *)
  get_database : option unit;
  (** [db.create_reset_request(app_name)]: its truth value, or an exception *)
  create_reset_request : string → outcome unit bool;
}.

(** The database calls made while serving a request. *)
Inductive db_call :=
  | CreateResetRequest (app_name : string).

(** A Flask response: the JSON body and the HTTP status. *)
Record response := {
  body : gmap string pyval;
  status : Z;
}.

Definition error_response (msg : string) (code : Z) : response :=
  {| body := <["success" := VBool false]> (<["error" := VStr msg]> ∅);
     status := code |}.

(** [not swaparr_settings or not swaparr_settings.get("enabled", False)] *)
Definition swaparr_disabled (w : world) : bool :=
  match load_swaparr_settings w with
  | None => true
  | Some swaparr_settings =>
      (size swaparr_settings =? 0) ||
      negb (truthy (dict_get swaparr_settings "enabled" (VBool false)))
  end.

(** Lines 1095-1119: the request is created, and answered. *)
Definition trigger_reset (w : world) (app_name : string) : response * list db_call :=
  let '(success, calls) :=
    match get_database w with
    | None => (false, [])
    | Some _ =>
        (match create_reset_request w app_name with
         | Returned success => success
         | Raised _ => false
         end, [CreateResetRequest app_name])
    end in
  (if success
   then {| body := <["success" := VBool true]>
                     (<["message" := VStr ("Cycle reset triggered for " +:+ app_name)]> ∅);
           status := 200 |}
   else error_response ("Failed to reset cycle for " +:+ app_name +:+
                        ". The app may not be running.") 500,
   calls).

Definition reset_app_cycle (w : world) (app_name : string) : response * list db_call :=
  if negb (bool_decide (app_name ∈ known_apps))
  then (error_response ("Invalid app name: " +:+ app_name) 400, [])
  else if String.eqb app_name "swaparr"
  then
    if swaparr_disabled w
    then (error_response (app_name +:+ " is not enabled") 400, [])
    else trigger_reset w app_name
  else
    if negb (bool_decide (app_name ∈ get_configured_apps w))
    then (error_response (app_name +:+ " is not configured") 400, [])
    else trigger_reset w app_name.

End WebServer.

(** ** [src/primary/apps/prowlarr_routes.py]: [test_connection] *)
Module Prowlarr.

(** An instance of [Exception], by the classes the handlers test for. *)
Record exception := {
  is_gaierror : bool;            (* socket.gaierror *)
  is_timeout : bool;             (* requests.exceptions.Timeout *)
  is_connection_error : bool;    (* requests.exceptions.ConnectionError *)
  is_request_exception : bool;   (* requests.exceptions.RequestException *)
  is_value_error : bool;         (* ValueError *)
  str : string;                  (* str(e) *)
}.

Definition ValueError (msg : string) : exception :=
  {| is_gaierror := false; is_timeout := false; is_connection_error := false;
     is_request_exception := false; is_value_error := true; str := msg |}.

Definition AttributeError (msg : string) : exception :=
  {| is_gaierror := false; is_timeout := false; is_connection_error := false;
     is_request_exception := false; is_value_error := false; str := msg |}.

Definition HTTPError (msg : string) : exception :=
  {| is_gaierror := false; is_timeout := false; is_connection_error := false;
     is_request_exception := true; is_value_error := false; str := msg |}.

(** The result of [urlparse]; reading [port] raises [ValueError] on a
    malformed port. *)
Record ParseResult := {
  scheme : string;
  hostname : option string;
  port : outcome string (option Z);
}.

(** What [response.json()] decodes to: an object, or a value without [.get]. *)
Inductive json_value :=
  | JsonObject (d : gmap string pyval)
  | JsonOther.

Record Response := {
  status_code : Z;
  reason : string;
  json : outcome exception json_value;
  text : string;
}.

(** The operations [test_connection] performs on the outside world. *)
Record network := {
  (** [urlparse(url)]; it raises [ValueError] only *)
  urlparse : string → outcome string ParseResult;
  (** lines 42-45: create the socket, set its timeout, [connect_ex], close *)
  socket_connect_ex : option string → Z → outcome exception Z;
  get_ssl_verify_setting : outcome exception bool;
  (** [requests.get(test_url, headers={'X-Api-Key': api_key},
      timeout=(10, timeout), verify=verify_ssl)] *)
  requests_get : string → string → Z → bool → outcome exception Response;
}.

#[global] Instance outcome_ret {E} : MRet (outcome E) := λ A a, Returned a.
#[global] Instance outcome_bind {E} : MBind (outcome E) := λ A B f m,
  match m with
  | Returned a => f a
  | Raised e => Raised e
  end.

(** [needle in s] *)
Definition contains (needle s : string) : bool :=
  match String.index 0 needle s with
  | Some _ => true
  | None => false
  end.

(** [s.rstrip('/')] *)
Fixpoint rstrip_slash (s : string) : string :=
  match s with
  | EmptyString => EmptyString
  | String a s' =>
      match rstrip_slash s' with
      | EmptyString =>
          (* 47 is the code of the slash *)
          if Ascii.eqb a (Ascii.ascii_of_nat 47) then EmptyString else String a EmptyString
      | r => String a r
      end
  end.

Definition failure (error_msg : string) : gmap string pyval :=
  <["success" := VBool false]> (<["message" := VStr error_msg]> ∅).

(** How an f-string prints an optional host name. *)
Definition show_hostname (h : option string) : string := default "None" h.

(** Line 30-33: the scheme is added when missing. *)
Definition correct_url (url : string) : string :=
  if String.prefix "http://" url || String.prefix "https://" url
  then url else "http://" +:+ url.

(** Lines 40-57: [Some d] when the socket test returns [d] from the
    function, [None] when the function goes on with the full request. *)
Definition socket_test (net : network) (hostname : option string) (port : Z)
    : option (gmap string pyval) :=
  match socket_connect_ex net hostname port with
  | Returned result =>
      if negb (result =? 0)%Z
      then Some (failure ("Connection refused - Unable to connect to " +:+
                   show_hostname hostname +:+ ":" +:+ pretty port +:+
                   ". Please check if the server is running and the port is correct."))
      else None
  | Raised e =>
      if is_gaierror e
      then Some (failure ("DNS resolution failed - Cannot resolve hostname: " +:+
                   show_hostname hostname +:+ ". Please check your URL."))
      else None
  end.

(** [response.raise_for_status()] *)
Definition raise_for_status (url : string) (response : Response) : outcome exception unit :=
  if ((400 <=? status_code response) && (status_code response <? 500))%Z
  then Raised (HTTPError (pretty (status_code response) +:+ " Client Error: " +:+
                          reason response +:+ " for url: " +:+ url))
  else if ((500 <=? status_code response) && (status_code response <? 600))%Z
  then Raised (HTTPError (pretty (status_code response) +:+ " Server Error: " +:+
                          reason response +:+ " for url: " +:+ url))
  else Returned ().

(** Lines 93-106: the inner [try] around [response.json()]. *)
Definition read_json (response : Response) : outcome exception (gmap string pyval) :=
  match json response with
  | Returned (JsonObject response_data) =>
      Returned (<["success" := VBool true]>
                (<["message" := VStr "Successfully connected to Prowlarr API"]>
                 (<["version" := dict_get response_data "version" (VStr "unknown")]> ∅)))
  | Returned JsonOther => Raised (AttributeError "object has no attribute 'get'")
  | Raised e =>
      if is_value_error e
      then Returned (failure "Invalid JSON response from Prowlarr API - This doesn't appear to be a valid Prowlarr server")
      else Raised e
  end.

(** Lines 72-106: the response is turned into the result. *)
Definition check_response (test_url : string) (response : Response)
    : outcome exception (gmap string pyval) :=
  if (status_code response =? 401)%Z
  then Returned (failure "Authentication failed: Invalid API key")
  else if (status_code response =? 403)%Z
  then Returned (failure "Access forbidden: Check API key permissions")
  else if (status_code response =? 404)%Z
  then Returned (failure "API endpoint not found: This doesn't appear to be a valid Prowlarr server. Check your URL.")
  else if (500 <=? status_code response)%Z
  then Returned (failure ("Prowlarr server error (HTTP " +:+ pretty (status_code response) +:+
                          "): The Prowlarr server is experiencing issues"))
  else raise_for_status test_url response ≫= λ _, read_json response.

(** Lines 29-106: the body of the outer [try], given the corrected url. *)
Definition try_body (net : network) (url api_key : string) (timeout : Z)
    : outcome exception (gmap string pyval) :=
  match urlparse net url with
  | Raised msg => Raised (ValueError msg)
  | Returned parsed_url =>
      match port parsed_url with
      | Raised msg => Raised (ValueError msg)
      | Returned p =>
          let port :=
            match p with
            | Some n => if (n =? 0)%Z then None else Some n
            | None => None
            end in
          let port := default (if String.eqb (scheme parsed_url) "https" then 443 else 80)%Z port in
          match socket_test net (hostname parsed_url) port with
          | Some result => Returned result
          | None =>
              let test_url := rstrip_slash url +:+ "/api/v1/system/status" in
              verify_ssl ← get_ssl_verify_setting net;
              response ← requests_get net test_url api_key timeout verify_ssl;
              check_response test_url response
          end
      end
  end.

(** Lines 108-133: the handlers of the outer [try]. *)
Definition handle (net : network) (url : string) (timeout : Z) (e : exception)
    : outcome exception (gmap string pyval) :=
  if is_timeout e
  then Returned (failure ("Connection timed out after " +:+ pretty timeout +:+ " seconds"))
  else if is_connection_error e
  then
    let error_details := str e in
    if contains "Connection refused" error_details
    then Returned (failure ("Connection refused - Prowlarr is not running on " +:+ url +:+
                            " or the port is incorrect"))
    else if contains "Name or service not known" error_details
            || contains "getaddrinfo failed" error_details
    then
      match urlparse net url with
      | Returned parsed =>
          Returned (failure ("DNS resolution failed - Cannot find host '" +:+
                             show_hostname (hostname parsed) +:+ "'. Check your URL."))
      | Raised msg => Raised (ValueError msg)   (* raised inside the handler *)
      end
    else Returned (failure ("Connection error - Check if Prowlarr is running: " +:+
                            error_details))
  else if is_request_exception e
  then Returned (failure ("Connection test failed: " +:+ str e))
  else Returned (failure ("Unexpected error: " +:+ str e)).

(** [test_connection(url, api_key, timeout)]: the dict returned, or the
    exception that reaches the caller. *)
Definition test_connection (net : network) (url api_key : string) (timeout : Z)
    : outcome exception (gmap string pyval) :=
  let url := correct_url url in
  match try_body net url api_key timeout with
  | Returned result => Returned result
  | Raised e => handle net url timeout e
  end.

(** A result dict as the callers read it: a boolean under ['success'], and
    a string under ['message'] when that boolean is false. *)
Definition reports_outcome (result : gmap string pyval) : Prop :=
  ∃ success : bool,
    result !! "success" = Some (VBool success) ∧
    (success = false → ∃ message, result !! "message" = Some (VStr message)).

End Prowlarr.

(** ** Concrete inputs

    A small Radarr instance on 2024-01-20, used to run the model. *)
Module Fixtures.
Import Radarr.

(** Midnight UTC of the day with the given number (0001-01-01 is day 0). *)
Definition day (n : Z) : Z := (n * datetime.usec_per_day)%Z.

(** A [parse_date] that knows three dates. *)
Definition parse_three_dates (s : string) : option Z :=
  if String.eqb s "2024-01-15T00:00:00Z" then Some (day 738899)
  else if String.eqb s "2024-01-19T00:00:00Z" then Some (day 738903)
  else if String.eqb s "2024-01-30T00:00:00Z" then Some (day 738914)
  else None.

Definition old_movie : movie :=
  {| id := 1; title := "Heat"; year := 1995;
     releaseDate := Some "2024-01-15T00:00:00Z" |}.

Definition recent_movie : movie :=
  {| id := 2; title := "Ronin"; year := 1998;
     releaseDate := Some "2024-01-19T00:00:00Z" |}.

Definition future_movie : movie :=
  {| id := 3; title := "Dune"; year := 2024;
     releaseDate := Some "2024-01-30T00:00:00Z" |}.

Definition undated_movie : movie :=
  {| id := 4; title := "Alien"; year := 1979; releaseDate := None |}.

Definition garbled_movie : movie :=
  {| id := 5; title := "Brazil"; year := 1985; releaseDate := Some "soon" |}.

Definition library : list movie :=
  [old_movie; recent_movie; future_movie; undated_movie; garbled_movie].

(** An instance where nothing was processed before, with the given stop
    signal, hourly cap and search outcomes. *)
Definition env_with (stop : list call → bool) (cap : list call → string → cap_answer)
    (search : list call → Z → bool) : collaborators :=
  {| parse_date := parse_three_dates;
     now := day 738904;
     current_time := λ _, day 738904;
     api_timeout := 120;
     tag_processed_items := true;
     get_custom_tag := "huntarr-upgraded";
     get_cutoff_unmet_movies_random_page := λ _ _ _ _ _, Some library;
     is_processed := λ _ _ _, false;
     stop_check := stop;
     check_hourly_cap_exceeded := cap;
     movie_search := search;
     tag_processed_movie := λ _ _ _, true |}.

(** Every search is accepted, no stop is requested and the hourly cap is
    far away. *)
Definition quiet_env : collaborators :=
  env_with (λ _, false) (λ _ _, CapAnswer false) (λ _ _, true).

(** The hourly cap is already reached. *)
Definition capped_env : collaborators :=
  env_with (λ _, false) (λ _ _, CapAnswer true) (λ _ _, true).

(** A stop is requested once one search was made. *)
Definition stopping_env : collaborators :=
  env_with (λ log, bool_decide (1 ≤ length (searched log)))
    (λ _ _, CapAnswer false) (λ _ _, true).

(** The search for movie 1 is refused, the others are accepted. *)
Definition refusing_env : collaborators :=
  env_with (λ _, false) (λ _ _, CapError) (λ _ movie_id, negb (movie_id =? 1)%Z).

Definition settings (hunt : Z) (skip_future process_no_dates : bool) (delay : Z)
    : app_settings :=
  {| api_url := " http://radarr:7878 "; api_key := "k";
     monitored_only := true;
     hunt_upgrade_movies := hunt;
     skip_future_releases := skip_future;
     process_no_release_dates := process_no_dates;
     release_date_delay_days := delay;
     instance_name := Some "Main"; name := None |}.

(** The loop of [stopping_env] over its first selected movie. *)
Definition after_first_movie : loop_state * loop_exit * list call :=
  process_movies stopping_env (settings 2 true false 0) [old_movie] initial_state
    ([] ++ [fetch_call stopping_env (settings 2 true false 0)]).

(** A database that accepts every reset request, swaparr switched on, and
    radarr the only configured app. *)
Definition reset_world : WebServer.world :=
  {| WebServer.load_swaparr_settings := Some (<["enabled" := VBool true]> ∅);
     WebServer.get_configured_apps := ["radarr"];
     WebServer.get_database := Some ();
     WebServer.create_reset_request := λ _, Returned true |}.

End Fixtures.

(** ** Reading a cycle's log *)
Module RadarrLog.
Import Radarr.

(** The movies whose search was accepted. *)
Definition accepted (log : list call) : list Z :=
  omap (λ c, match c with MovieSearch i true => Some i | _ => None end) log.

(** The movies a tag was requested for. *)
Definition tagged (log : list call) : list Z :=
  omap (λ c, match c with TagProcessedMovie i _ _ => Some i | _ => None end) log.

(** The movies entered in the history. *)
Definition recorded (log : list call) : list Z :=
  omap (λ c, match c with LogProcessedMedia _ _ i _ _ => Some i | _ => None end) log.

(** Every search in the log comes right after a stop check that answered
    no and a cap check that did not answer "exceeded". *)
Definition guarded (log : list call) : Prop :=
  ∀ before i ok after,
    log = before ++ MovieSearch i ok :: after →
    ∃ before' cap,
      before = before' ++ [StopCheck false; CheckHourlyCap "radarr" cap] ∧
      cap ≠ CapAnswer true.

End RadarrLog.

(** ** JSON values, as Python holds them

    Numbers are integers here; a JSON object is a dict with string keys. *)
#[warnings="-register-all"]
Inductive jvalue :=
  | JNull
  | JBool (b : bool)
  | JInt (z : Z)
  | JStr (s : string)
  | JList (l : list jvalue)
  | JDict (d : gmap string jvalue).

Module Py.
Import Prowlarr.

(** Truthiness of a JSON value. *)
Definition truth (j : jvalue) : bool :=
  match j with
  | JNull => false
  | JBool b => b
  | JInt z => negb (z =? 0)%Z
  | JStr s => negb (String.eqb s "")
  | JList l => match l with [] => false | _ => true end
  | JDict d => negb (size d =? 0)
  end.

(** [type(j).__name__] *)
Definition type_name (j : jvalue) : string :=
  match j with
  | JNull => "NoneType"
  | JBool _ => "bool"
  | JInt _ => "int"
  | JStr _ => "str"
  | JList _ => "list"
  | JDict _ => "dict"
  end.

Definition TypeError (msg : string) : exception :=
  {| is_gaierror := false; is_timeout := false; is_connection_error := false;
     is_request_exception := false; is_value_error := false; str := msg |}.

Definition KeyError (msg : string) : exception :=
  {| is_gaierror := false; is_timeout := false; is_connection_error := false;
     is_request_exception := false; is_value_error := false; str := msg |}.

Definition no_attribute (j : jvalue) (attr : string) : exception :=
  AttributeError ("'" +:+ type_name j +:+ "' object has no attribute '" +:+ attr +:+ "'").

(** [j.get(key, dflt)]: only a dict has [get]. *)
Definition get (j : jvalue) (key : string) (dflt : jvalue) : outcome exception jvalue :=
  match j with
  | JDict d => Returned (default dflt (d !! key))
  | _ => Raised (no_attribute j "get")
  end.

(** The characters of a string, each as a string. *)
Fixpoint chars (s : string) : list jvalue :=
  match s with
  | EmptyString => []
  | String a s' => JStr (String a EmptyString) :: chars s'
  end.

(** [for x in j]: the elements of a list, the keys of a dict, the
    characters of a string; nothing else can be iterated. *)
Definition iter (j : jvalue) : outcome exception (list jvalue) :=
  match j with
  | JList l => Returned l
  | JDict d => Returned (JStr <$> (map_to_list d).*1)
  | JStr s => Returned (chars s)
  | _ => Raised (TypeError ("'" +:+ type_name j +:+ "' object is not iterable"))
  end.

End Py.

(** ** [src/primary/apps/prowlarr_routes.py]: the routes *)
Module ProwlarrRoutes.
Import Prowlarr.

(** The Prowlarr settings the routes read: [api_url] and [api_key] are
    strings when present, [enabled] any scalar. *)
Record settings := {
  api_url : option string;
  api_key : option string;
  enabled : option pyval;
}.

(** A response whose body is read as arbitrary JSON. *)
Record JsonResponse := {
  status_code : Z;
  json_body : outcome exception jvalue;
}.

(** What the routes read and call, besides [test_connection]'s network. *)
Record world := {
  (** [load_settings("prowlarr")] *)
  load_settings : outcome exception settings;
  (** [requests.get(url, headers={'X-Api-Key': api_key}, timeout=t)] *)
  requests_get : string → string → Z → outcome exception JsonResponse;
}.

(** *** [test_connection_endpoint] *)

(** What [test_connection] meets when the endpoint hands it a key that
    is no string or a timeout that is no integer. *)
Record json_calls := {
  (** [requests.get(test_url, headers={'X-Api-Key': api_key},
      timeout=(10, timeout), verify=verify_ssl)] for a key and a timeout
      of any JSON type *)
  requests_get_json : string → jvalue → jvalue → bool → outcome exception Response;
  (** [str(v)] for a list or a dict *)
  str_container : jvalue → string;
}.

(** [f"{v}"] *)
Definition format (py : json_calls) (v : jvalue) : string :=
  match v with
  | JNull => "None"
  | JBool true => "True"
  | JBool false => "False"
  | JInt z => pretty z
  | JStr s => s
  | other => str_container py other
  end.

(** [result[key]] *)
Definition subscript (result : gmap string pyval) (key : string)
    : outcome exception pyval :=
  match result !! key with
  | Some v => Returned v
  | None => Raised (Py.KeyError ("'" +:+ key +:+ "'"))
  end.

(** Lines 475-484: the HTTP status is read off the message. *)
Definition status_of_message (message : string) : Z :=
  if contains "Invalid API key" message then 401
  else if contains "Access forbidden" message then 403
  else if contains "not found" message || contains "DNS resolution failed" message
  then 404
  else if contains "timed out" message then 504
  else 500.

(** [test_connection(url, api_key, timeout)] on the values of a JSON
    body.  A url that is no string has no [startswith]: the
    [AttributeError] of line 30 reaches the last handler.  With a string
    url, the same body and the same handlers run; only [requests.get] and
    the timeout message see the key and the timeout. *)
Definition test_connection_json (net : network) (py : json_calls)
    (url api_key timeout : jvalue) : outcome exception (gmap string pyval) :=
  match url with
  | JStr u =>
      match api_key, timeout with
      | JStr k, JInt t => test_connection net u k t
      | _, _ =>
          let url := correct_url u in
          let net_json :=
            {| urlparse := urlparse net;
               socket_connect_ex := socket_connect_ex net;
               get_ssl_verify_setting := get_ssl_verify_setting net;
               Prowlarr.requests_get := λ test_url _ _ verify_ssl,
                 requests_get_json py test_url api_key timeout verify_ssl |} in
          match try_body net_json url "" 0 with
          | Returned result => Returned result
          | Raised e =>
              if is_timeout e
              then Returned (failure ("Connection timed out after " +:+
                                      format py timeout +:+ " seconds"))
              else handle net url 0 e
          end
      end
  | other =>
      Returned (failure ("Unexpected error: " +:+ str (Py.no_attribute other "startswith")))
  end.

(** [test_connection_endpoint()], given what [request.json] evaluates to:
    the decoded body, or the exception it raises. *)
Definition test_connection_endpoint (net : network) (py : json_calls)
    (request_json : outcome exception jvalue)
    : outcome exception (gmap string pyval * Z) :=
  data ← request_json;
  api_url ← Py.get data "api_url" JNull;
  api_key ← Py.get data "api_key" JNull;
  api_timeout ← Py.get data "api_timeout" (JInt 30);
  if negb (Py.truth api_url) || negb (Py.truth api_key)
  then Returned (failure "API URL and API Key are required", 400%Z)
  else
    result ← test_connection_json net py api_url api_key api_timeout;
    success ← subscript result "success";
    if truthy success
    then Returned (result, 200%Z)
    else
      message ← subscript result "message";
      match message with
      | VStr message => Returned (result, status_of_message message)
      | _ => Raised (Py.TypeError "argument is not iterable")
      end.

(** *** [get_status] *)

(** Lines 139-159: the body of the [try]. *)
Definition status_body (net : network) (w : world)
    : outcome exception (gmap string pyval) :=
  settings ← load_settings w;
  let api_url := Radarr.strip (default "" (api_url settings)) in
  let api_key := Radarr.strip (default "" (api_key settings)) in
  let enabled := default (VBool true) (enabled settings) in
  if String.eqb api_url "" || String.eqb api_key ""
  then Returned (<["configured" := VBool false]> (<["connected" := VBool false]> ∅))
  else
    connected ←
      (if truthy enabled
       then test_result ← test_connection net api_url api_key 5;
            subscript test_result "success"
       else Returned (VBool false));
    Returned (<["configured" := VBool true]>
              (<["connected" := connected]>
               (<["enabled" := enabled]> ∅))).

Definition get_status (net : network) (w : world) : gmap string pyval :=
  match status_body net w with
  | Returned response => response
  | Raised e =>
      <["configured" := VBool false]>
      (<["connected" := VBool false]>
       (<["error" := VStr (str e)]> ∅))
  end.

(** *** [get_prowlarr_indexers] *)

(** Lines 201-205. *)
Definition indexer_info (indexer : jvalue) : outcome exception jvalue :=
  name ← Py.get indexer "name" (JStr "Unknown");
  protocol ← Py.get indexer "protocol" (JStr "unknown");
  ident ← Py.get indexer "id" JNull;
  Returned (JDict (<["name" := name]> (<["protocol" := protocol]> (<["id" := ident]> ∅)))).

(** The three lists the loop fills. *)
Record indexer_lists := {
  active_indexers : list jvalue;
  throttled_indexers : list jvalue;
  failed_indexers : list jvalue;
}.

(** Lines 201-217: one indexer is filed. *)
Definition file_indexer (indexer : jvalue) (acc : indexer_lists)
    : outcome exception indexer_lists :=
  info ← indexer_info indexer;
  enable ← Py.get indexer "enable" (JBool false);
  let active := if Py.truth enable then active_indexers acc ++ [info]
                else active_indexers acc in
  capabilities ← Py.get indexer "capabilities" (JDict ∅);
  limits ← Py.get capabilities "limitsexceeded" (JBool false);
  let throttled := if Py.truth limits then throttled_indexers acc ++ [info]
                   else throttled_indexers acc in
  enable' ← Py.get indexer "enable" (JBool false);
  let failed := if negb (Py.truth enable') then failed_indexers acc ++ [info]
                else failed_indexers acc in
  Returned {| active_indexers := active; throttled_indexers := throttled;
              failed_indexers := failed |}.

(** Lines 200-217: the loop. *)
Fixpoint file_indexers (indexers : list jvalue) (acc : indexer_lists)
    : outcome exception indexer_lists :=
  match indexers with
  | [] => Returned acc
  | indexer :: rest => acc' ← file_indexer indexer acc; file_indexers rest acc'
  end.

Definition json_error (msg : string) : jvalue :=
  JDict (<["success" := JBool false]> (<["error" := JStr msg]> ∅)).

(** Lines 188-231: the inner [try]. *)
Definition indexers_request (w : world) (api_url api_key : string)
    : outcome exception (jvalue * Z) :=
  let indexers_url := rstrip_slash api_url +:+ "/api/v1/indexer" in
  indexers_response ← requests_get w indexers_url api_key 5;
  if (status_code indexers_response =? 200)%Z
  then
    indexers ← json_body indexers_response;
    items ← Py.iter indexers;
    lists ← file_indexers items
              {| active_indexers := []; throttled_indexers := [];
                 failed_indexers := [] |};
    Returned
      (JDict (<["success" := JBool true]>
              (<["indexer_details" :=
                   JDict (<["active" := JList (active_indexers lists)]>
                          (<["throttled" := JList (throttled_indexers lists)]>
                           (<["failed" := JList (failed_indexers lists)]> ∅)))]> ∅)),
       200%Z)
  else
    Returned (json_error ("Failed to get indexers (HTTP " +:+
                          pretty (status_code indexers_response) +:+ ")"), 500%Z).

(** Lines 168-248: the outer [try], with the handlers of the inner one. *)
Definition indexers_body (w : world) : outcome exception (jvalue * Z) :=
  settings ← load_settings w;
  let api_url := Radarr.strip (default "" (api_url settings)) in
  let api_key := Radarr.strip (default "" (api_key settings)) in
  let enabled := default (VBool true) (enabled settings) in
  if String.eqb api_url "" || String.eqb api_key "" || negb (truthy enabled)
  then Returned (json_error "Prowlarr is not configured or enabled", 400%Z)
  else
    let api_url := correct_url api_url in
    match indexers_request w api_url api_key with
    | Returned response => Returned response
    | Raised e =>
        if is_timeout e then Returned (json_error "Connection timeout", 504%Z)
        else if is_connection_error e
        then Returned (json_error "Connection refused", 503%Z)
        else Returned (json_error ("Error getting indexers: " +:+ str e), 500%Z)
    end.

Definition get_prowlarr_indexers (w : world) : jvalue * Z :=
  match indexers_body w with
  | Returned response => response
  | Raised e => (json_error ("Failed to get Prowlarr indexers: " +:+ str e), 500%Z)
  end.

End ProwlarrRoutes.

(** ** Concrete inputs for the Prowlarr routes *)
Module RouteFixtures.
Import Prowlarr.

(** A Prowlarr that is reachable and answers every request with the given
    status and the given JSON outcome. *)
Definition answering (code : Z) (body : outcome exception json_value) : network :=
  {| urlparse := λ _,
       Returned {| scheme := "http"; hostname := Some "prowlarr";
                   port := Returned (Some 9696%Z) |};
     socket_connect_ex := λ _ _, Returned 0%Z;
     get_ssl_verify_setting := Returned true;
     requests_get := λ _ _ _ _,
       Returned {| status_code := code; reason := "reason"; json := body;
                   text := "text" |} |}.

(** The body the settings form sends: a url and a key. *)
Definition test_request_for (url key : string) : jvalue :=
  JDict (<["api_url" := JStr url]> (<["api_key" := JStr key]> ∅)).

(** A [requests] that refuses every key that is no string. *)
Definition strict_requests : ProwlarrRoutes.json_calls :=
  {| ProwlarrRoutes.requests_get_json := λ _ _ _ _,
       Raised {| is_gaierror := false; is_timeout := false;
                 is_connection_error := false; is_request_exception := true;
                 is_value_error := true;
                 str := "Header part must be of type str or bytes" |};
     ProwlarrRoutes.str_container := λ _, "[]" |}.

(** Two indexers, the second one switched off and throttled. *)
Definition two_indexers : jvalue :=
  JList [JDict (<["name" := JStr "alpha"]> (<["id" := JInt 1]>
                 (<["enable" := JBool true]> ∅)));
         JDict (<["name" := JStr "beta"]> (<["id" := JInt 2]>
                 (<["capabilities" :=
                      JDict (<["limitsexceeded" := JBool true]> ∅)]> ∅)))].

Definition indexer_world (code : Z) (body : outcome exception jvalue)
    : ProwlarrRoutes.world :=
  {| ProwlarrRoutes.load_settings :=
       Returned {| ProwlarrRoutes.api_url := Some "prowlarr:9696/";
                   ProwlarrRoutes.api_key := Some "k";
                   ProwlarrRoutes.enabled := None |};
     ProwlarrRoutes.requests_get := λ _ _ _,
       Returned {| ProwlarrRoutes.status_code := code;
                   ProwlarrRoutes.json_body := body |} |}.

End RouteFixtures.

(** ** [src/primary/web_server.py]: the base url and the status route *)
Module WebRoutes.
Import Prowlarr.

(** *** [get_base_url] and [configure_base_url] *)

(** [s.endswith('/')] *)
Fixpoint endswith_slash (s : string) : bool :=
  match s with
  | EmptyString => false
  | String a EmptyString => Ascii.eqb a (Ascii.ascii_of_nat 47)
  | String _ s' => endswith_slash s'
  end.

(** Lines 140-147, for the value [get_setting('general', 'base_url', '')]
    returned; only a string has [startswith]. *)
Definition normalise_base_url (base_url : jvalue) : outcome exception jvalue :=
  if negb (Py.truth base_url) then Returned base_url
  else
    match base_url with
    | JStr s =>
        let s := if String.prefix "/" s then s else "/" +:+ s in
        (* [s] is not empty here, so [if base_url and ...] tests the rest *)
        if negb (String.eqb s "/") && endswith_slash s
        then Returned (JStr (rstrip_slash s))
        else Returned (JStr s)
    | other => Raised (Py.no_attribute other "startswith")
    end.

(** [get_base_url()], given what [get_setting] returns or raises. *)
Definition get_base_url (get_setting : outcome exception jvalue) : jvalue :=
  match get_setting ≫= normalise_base_url with
  | Returned base_url => base_url
  | Raised _ => JStr ""
  end.

(** The module's global [base_url] and the Flask [app.config]. *)
Record app_state := {
  base_url : jvalue;
  config : gmap string jvalue;
}.

Definition configure_base_url (get_setting : outcome exception jvalue)
    (st : app_state) : app_state :=
  let base_url := get_base_url get_setting in
  {| base_url := base_url;
     config := <["APPLICATION_ROOT" := if Py.truth base_url then base_url else JNull]>
                 (config st) |}.

(** *** [api_app_status] *)

(** What the status route reads and calls. *)
Record world := {
  (** [settings_manager.KNOWN_APP_TYPES] *)
  known_app_types : list string;
  (** importing [src.primary.apps.<app>] *)
  import_app : string → outcome exception unit;
  (** importing [src.primary.apps.<app>.api] *)
  import_api : string → outcome exception unit;
  (** [hasattr(instances_module, 'get_configured_instances')] *)
  has_get_configured_instances : string → bool;
  get_configured_instances : string → outcome exception (list (gmap string pyval));
  (** [hasattr(api_module, 'check_connection')] *)
  has_check_connection : string → bool;
  (** [check_connection(url, key, timeout)] of the app, at its n-th call *)
  check_connection : string → nat → pyval → pyval → Z → outcome exception pyval;
  (** [get_setting(app_name, "api_timeout", 10)] *)
  get_api_timeout : string → outcome exception Z;
  get_api_url : string → outcome exception pyval;
  get_api_key : string → outcome exception pyval;
}.

(** A connection check that was made: the url, the key and the timeout. *)
Record check := {
  check_url : pyval;
  check_key : pyval;
  check_timeout : Z;
}.

Definition multi_instance_apps : list string :=
  ["sonarr"; "radarr"; "lidarr"; "readarr"; "whisparr"; "eros"].

(** Lines 863-875: the loop over the instances; a check that raises is
    logged and counts as not connected. *)
Fixpoint check_instances (w : world) (app_name : string) (api_timeout : Z)
    (instances : list (gmap string pyval)) (n : nat) (connected_count : Z)
    : Z * list check :=
  match instances with
  | [] => (connected_count, [])
  | instance :: rest =>
      let inst_url := dict_get instance "api_url" VNone in
      let inst_key := dict_get instance "api_key" VNone in
      let timeout := Z.min api_timeout 5 in
      let connected :=
        match check_connection w app_name n inst_url inst_key timeout with
        | Returned v => truthy v
        | Raised _ => false
        end in
      let '(total, checks) :=
        check_instances w app_name api_timeout rest (S n)
          (if connected then connected_count + 1 else connected_count)%Z in
      (total, {| check_url := inst_url; check_key := inst_key;
                 check_timeout := timeout |} :: checks)
  end.

(** Lines 848-880: the [try] of the multi-instance branch.  The value is
    [(total_configured, connected_count)]. *)
Definition multi_instance_body (w : world) (app_name : string)
    : outcome exception (Z * Z) * list check :=
  match import_app w app_name ≫= λ _, import_api w app_name with
  | Raised e => (Raised e, [])
  | Returned _ =>
      if has_get_configured_instances w app_name
      then
        match get_configured_instances w app_name with
        | Raised e => (Raised e, [])
        | Returned instances =>
            let total_configured := Z.of_nat (length instances) in
            match get_api_timeout w app_name with
            | Raised e => (Raised e, [])
            | Returned api_timeout =>
                if (0 <? total_configured)%Z && has_check_connection w app_name
                then
                  let '(connected_count, checks) :=
                    check_instances w app_name api_timeout instances 0 0%Z in
                  (Returned (total_configured, connected_count), checks)
                else (Returned (total_configured, 0%Z), [])
            end
        end
      else (Returned (0%Z, 0%Z), [])
  end.

(** Lines 892-917: the single-instance branch.  The value is
    [(is_configured, is_connected)]. *)
Definition single_instance_body (w : world) (app_name : string)
    : outcome exception (bool * pyval) * list check :=
  match get_api_url w app_name with
  | Raised e => (Raised e, [])
  | Returned api_url =>
      match get_api_key w app_name with
      | Raised e => (Raised e, [])
      | Returned api_key =>
          let is_configured := truthy api_url && truthy api_key in
          match get_api_timeout w app_name with
          | Raised e => (Raised e, [])
          | Returned api_timeout =>
              if is_configured
              then
                match import_api w app_name with
                | Raised _ => (Returned (is_configured, VBool false), [])
                | Returned _ =>
                    if has_check_connection w app_name
                    then
                      let timeout := Z.min api_timeout 5 in
                      (Returned
                         (is_configured,
                          match check_connection w app_name 0 api_url api_key timeout with
                          | Returned v => v
                          | Raised _ => VBool false
                          end),
                       [{| check_url := api_url; check_key := api_key;
                           check_timeout := timeout |}])
                    else (Returned (is_configured, VBool false), [])
                end
              else (Returned (is_configured, VBool false), [])
          end
      end
  end.

(** [api_app_status(app_name)]: the JSON dict, the HTTP status and the
    connection checks made. *)
Definition api_app_status (w : world) (app_name : string)
    : gmap string pyval * Z * list check :=
  if negb (bool_decide (app_name ∈ known_app_types w))
  then (<["configured" := VBool false]>
        (<["connected" := VBool false]>
         (<["error" := VStr "Invalid app name"]> ∅)), 400%Z, [])
  else if bool_decide (app_name ∈ multi_instance_apps)
  then
    match multi_instance_body w app_name with
    | (Returned (total_configured, connected_count), checks) =>
        (<["total_configured" := VInt total_configured]>
         (<["connected_count" := VInt connected_count]> ∅), 200%Z, checks)
    | (Raised _, checks) =>
        (<["total_configured" := VInt 0]>
         (<["connected_count" := VInt 0]>
          (<["error" := VStr "Import Error"]> ∅)), 500%Z, checks)
    end
  else
    match single_instance_body w app_name with
    | (Returned (is_configured, is_connected), checks) =>
        (<["configured" := VBool is_configured]>
         (<["connected" := is_connected]> ∅), 200%Z, checks)
    | (Raised _, checks) =>
        (<["configured" := VBool false]>
         (<["connected" := VBool false]>
          (<["error" := VStr "Internal error"]> ∅)), 200%Z, checks)
    end.

End WebRoutes.

(** ** Concrete inputs for the status route *)
Module StatusFixtures.
Import WebRoutes.

(** Two instances per app; the first connection check succeeds, the
    second one raises. *)
Definition status_world : world :=
  {| known_app_types := ["sonarr"; "radarr"; "swaparr"; "prowlarr"];
     import_app := λ _, Returned ();
     import_api := λ _, Returned ();
     has_get_configured_instances := λ _, true;
     get_configured_instances := λ _,
       Returned [<["api_url" := VStr "http://a"]> (<["api_key" := VStr "ka"]> ∅);
                 <["api_url" := VStr "http://b"]> (<["api_key" := VStr "kb"]> ∅)];
     has_check_connection := λ _, true;
     check_connection := λ _ n _ _ _,
       match n with
       | O => Returned (VBool true)
       | S _ => Raised (Prowlarr.ValueError "unreachable")
       end;
     get_api_timeout := λ _, Returned 120%Z;
     get_api_url := λ _, Returned (VStr "http://p");
     get_api_key := λ _, Returned (VStr "kp") |}.

End StatusFixtures.

(** ** [src/primary/web_server.py]: saving an app's settings *)
Module SettingsRoutes.
Import Prowlarr.

(** The two methods the route is registered for. *)
Inductive http_method :=
  | GET
  | POST.

Record world := {
  (** [settings_manager.KNOWN_APP_TYPES] *)
  known_app_types : list string;
  load_settings : string → outcome exception jvalue;
  (** the truth value of [settings_manager.save_settings(app_name, data)] *)
  save_settings : string → gmap string jvalue → outcome exception bool;
}.

(** A call of [save_settings]. *)
Inductive save_call :=
  | SaveSettings (app_name : string) (data : gmap string jvalue).

(** [s.rstrip('\\')]; 92 is the code of the backslash. *)
Fixpoint rstrip_backslash (s : string) : string :=
  match s with
  | EmptyString => EmptyString
  | String a s' =>
      match rstrip_backslash s' with
      | EmptyString =>
          if Ascii.eqb a (Ascii.ascii_of_nat 92) then EmptyString else String a EmptyString
      | r => String a r
      end
  end.

(** [s.endswith('\\')] *)
Fixpoint endswith_backslash (s : string) : bool :=
  match s with
  | EmptyString => false
  | String a EmptyString => Ascii.eqb a (Ascii.ascii_of_nat 92)
  | String _ s' => endswith_backslash s'
  end.

(** [url.strip().rstrip('/').rstrip('\\')] *)
Definition clean_url (url : string) : string :=
  rstrip_backslash (rstrip_slash (Radarr.strip url)).

(** [key in container] *)
Definition has_key (container : jvalue) (key : string) : outcome exception bool :=
  match container with
  | JDict d => Returned (bool_decide (is_Some (d !! key)))
  | JList l =>
      Returned (existsb (λ x, match x with JStr s => String.eqb s key | _ => false end) l)
  | JStr s => Returned (contains key s)
  | other =>
      Raised (Py.TypeError ("argument of type '" +:+ Py.type_name other +:+
                            "' is not iterable"))
  end.

(** [container[key]], for a string key *)
Definition getitem (container : jvalue) (key : string) : outcome exception jvalue :=
  match container with
  | JDict d =>
      match d !! key with
      | Some v => Returned v
      | None => Raised (Py.KeyError ("'" +:+ key +:+ "'"))
      end
  | _ => Raised (Py.TypeError "indices must be integers")
  end.

(** [container[key] = v], for a string key *)
Definition setitem (container : jvalue) (key : string) (v : jvalue)
    : outcome exception jvalue :=
  match container with
  | JDict d => Returned (JDict (<[key := v]> d))
  | _ => Raised (Py.TypeError "object does not support item assignment")
  end.

(** Lines 751-753 (and 754-756): the [api_url] of [container] is cleaned
    when it is there and truthy. *)
Definition clean_api_url (container : jvalue) : outcome exception jvalue :=
  has ← has_key container "api_url";
  if has : bool
  then
    url ← getitem container "api_url";
    if Py.truth url
    then
      match url with
      | JStr s => setitem container "api_url" (JStr (clean_url s))
      | other => Raised (Py.no_attribute other "strip")
      end
    else Returned container
  else Returned container.

(** Lines 750-753: the loop over the instances. *)
Fixpoint clean_instances (instances : list jvalue) : outcome exception (list jvalue) :=
  match instances with
  | [] => Returned []
  | instance :: rest =>
      instance' ← clean_api_url instance;
      rest' ← clean_instances rest;
      Returned (instance' :: rest')
  end.

(** Lines 749-756, for a request body that is a JSON object. *)
Definition clean_data (data : gmap string jvalue) : outcome exception (gmap string jvalue) :=
  match data !! "instances" with
  | Some (JList instances) =>
      instances' ← clean_instances instances;
      Returned (<["instances" := JList instances']> data)
  | _ =>
      cleaned ← clean_api_url (JDict data);
      match cleaned with
      | JDict data' => Returned data'
      | _ => Returned data
      end
  end.

Definition error_json (msg : string) : jvalue :=
  JDict (<["success" := JBool false]> (<["error" := JStr msg]> ∅)).

(** [handle_app_settings(app_name)] for a request with the given method,
    [request.is_json] and JSON object [request.json]: the response or the
    exception that leaves the view, and the calls of [save_settings]. *)
Definition handle_app_settings (w : world) (app_name : string) (method : http_method)
    (is_json : bool) (data : gmap string jvalue)
    : outcome exception (jvalue * Z) * list save_call :=
  if negb (bool_decide (app_name ∈ known_app_types w))
  then (Returned (error_json ("Unknown application type: " +:+ app_name), 400%Z), [])
  else
    match method with
    | GET => (app_settings ← load_settings w app_name; Returned (app_settings, 200%Z), [])
    | POST =>
        if negb is_json
        then (Returned (error_json "Expected JSON data", 400%Z), [])
        else
          match clean_data data with
          | Raised e => (Raised e, [])
          | Returned data' =>
              (success ← save_settings w app_name data';
               if success : bool
               then Returned (JDict (<["success" := JBool true]> ∅), 200%Z)
               else Returned (error_json ("Failed to save " +:+ app_name +:+ " settings"),
                              500%Z),
               [SaveSettings app_name data'])
          end
    end.

End SettingsRoutes.

(** ** What the settings route is meant to save

  The specification of the cleaning, in the words of the comments at
  lines 748-755: the urls in the data are cleaned before saving, those
  of the instances when there is an instances array, the one of the app
  itself otherwise. *)
Module SettingsSpec.
Import SettingsRoutes.

(** A settings object with its [api_url], when that is a string, cleaned. *)
Definition with_clean_url (d : gmap string jvalue) : gmap string jvalue :=
  match d !! "api_url" with
  | Some (JStr url) => <["api_url" := JStr (clean_url url)]> d
  | _ => d
  end.

(** An entry of the instances array, cleaned when it is an object. *)
Definition clean_instance (instance : jvalue) : jvalue :=
  match instance with
  | JDict d => JDict (with_clean_url d)
  | other => other
  end.

(** The form as it is to be saved. *)
Definition clean_form (data : gmap string jvalue) : gmap string jvalue :=
  match data !! "instances" with
  | Some (JList instances) => <["instances" := JList (clean_instance <$> instances)]> data
  | _ => with_clean_url data
  end.

End SettingsSpec.

(** ** Concrete inputs for the settings route *)
Module SettingsFixtures.
Import SettingsRoutes.

(** Radarr is the only known app, and every save succeeds. *)
Definition saving_world : world :=
  {| known_app_types := ["radarr"];
     load_settings := λ _, Returned (JDict ∅);
     save_settings := λ _ _, Returned true |}.

(** A form with one instance, its url followed by a slash and a blank. *)
Definition submitted_form : gmap string jvalue :=
  <["instances" := (JList [JDict (<["api_url" := JStr "http://radarr:7878/ "]>
                                    (<["api_key" := JStr "k"]> ∅))])]>
    (<["hunt_upgrade_movies" := JInt 2]> ∅).

Definition saved_form : gmap string jvalue :=
  <["instances" := (JList [JDict (<["api_url" := JStr "http://radarr:7878"]>
                                    (<["api_key" := JStr "k"]> ∅))])]>
    (<["hunt_upgrade_movies" := JInt 2]> ∅).

End SettingsFixtures.

(** ** [src/primary/web_server.py]: saving the general settings *)
Module GeneralSettings.
Import Prowlarr.

(** What [save_general_settings] reads and calls.  [get_safe_timezone]
    returns a timezone name, a string. *)
Record world := {
  (** [settings_manager.load_settings('general')] *)
  load_settings : outcome exception (gmap string jvalue);
  get_safe_timezone : jvalue → string;
  (** the truth value of [settings_manager.save_settings('general', data)] *)
  save_settings : gmap string jvalue → outcome exception bool;
  (** the truth value of [settings_manager.apply_timezone(tz)] *)
  apply_timezone : string → outcome exception bool;
  refresh_timezone_formatters : outcome exception unit;
  (** [int(s)] for a string; [None] stands for [ValueError] *)
  int_of_string : string → option Z;
  update_lock_expiration : Z → outcome exception unit;
  update_logging_levels : outcome exception unit;
  get_all_settings : outcome exception jvalue;
}.

(** The calls that change something. *)
Inductive call :=
  | SaveSettings (data : gmap string jvalue)
  | ApplyTimezone (timezone : string)
  | RefreshTimezoneFormatters
  | UpdateLockExpiration (hours : Z)
  | UpdateLoggingLevels.

(** [int(v)] *)
Definition py_int (w : world) (v : jvalue) : outcome exception Z :=
  match v with
  | JInt z => Returned z
  | JBool b => Returned (if b then 1 else 0)%Z
  | JStr s =>
      match int_of_string w s with
      | Some z => Returned z
      | None => Raised (ValueError ("invalid literal for int() with base 10: " +:+ s))
      end
  | other =>
      Raised (Py.TypeError ("int() argument must be a string, a bytes-like object " +:+
                            "or a real number, not '" +:+ Py.type_name other +:+ "'"))
  end.

(** Lines 582-594: the bypass flags follow an explicit [auth_mode]. *)
Definition align_auth_flags (data : gmap string jvalue) : gmap string jvalue :=
  let auth_mode := default JNull (data !! "auth_mode") in
  let set (local proxy : bool) :=
    <["proxy_auth_bypass" := JBool proxy]> (<["local_access_bypass" := JBool local]> data) in
  match auth_mode with
  | JStr mode =>
      if String.eqb mode "local_bypass" then set true false
      else if String.eqb mode "no_login" then set false true
      else if String.eqb mode "login" then set false false
      else data
  | _ => data
  end.

(** Lines 597-613: the timezone is validated; the value is the data to
    save and, when the timezone differs from the current one, the new
    timezone. *)
Definition check_timezone (w : world) (data : gmap string jvalue)
    : outcome exception (gmap string jvalue * option string) :=
  match data !! "timezone" with
  | None => Returned (data, None)
  | Some new_timezone =>
      current_settings ← load_settings w;
      let current_timezone := default (JStr "UTC") (current_settings !! "timezone") in
      let safe_timezone := get_safe_timezone w new_timezone in
      let data :=
        match new_timezone with
        | JStr tz => if String.eqb tz safe_timezone then data
                     else <["timezone" := JStr safe_timezone]> data
        | _ => <["timezone" := JStr safe_timezone]> data
        end in
      let unchanged :=
        match current_timezone with
        | JStr tz => String.eqb tz safe_timezone
        | _ => false
        end in
      Returned (data, if unchanged then None else Some safe_timezone)
  end.

(** Lines 620-637: the timezone is applied; nothing that goes wrong here
    leaves the [try]. *)
Definition apply_change (w : world) (timezone_changed : option string) : list call :=
  match timezone_changed with
  | None => []
  | Some new_timezone =>
      ApplyTimezone new_timezone ::
      match apply_timezone w new_timezone with
      | Returned true => [RefreshTimezoneFormatters]
      | _ => []
      end
  end.

(** Lines 640-649: the expiration follows a positive number of hours;
    nothing that goes wrong here leaves the [try]. *)
Definition update_expiration (w : world) (data : gmap string jvalue) : list call :=
  match py_int w (default JNull (data !! "stateful_management_hours")) with
  | Returned new_hours =>
      if (0 <? new_hours)%Z then [UpdateLockExpiration new_hours] else []
  | Raised _ => []
  end.

Definition error_json (msg : string) : jvalue :=
  JDict (<["success" := JBool false]> (<["error" := JStr msg]> ∅)).

(** [save_general_settings()] for a request with the given
    [request.is_json] and JSON object [request.json]. *)
Definition save_general_settings (w : world) (is_json : bool)
    (data : gmap string jvalue) : outcome exception (jvalue * Z) * list call :=
  if negb is_json
  then (Returned (error_json "Expected JSON data", 400%Z), [])
  else
    match check_timezone w (align_auth_flags data) with
    | Raised e => (Raised e, [])
    | Returned (data, timezone_changed) =>
        match save_settings w data with
        | Raised e => (Raised e, [SaveSettings data])
        | Returned false =>
            (Returned (error_json "Failed to save general settings", 500%Z),
             [SaveSettings data])
        | Returned true =>
            let calls :=
              SaveSettings data :: apply_change w timezone_changed ++
              update_expiration w data ++ [UpdateLoggingLevels] in
            (update_logging_levels w ≫= λ _,
             all_settings ← get_all_settings w; Returned (all_settings, 200%Z),
             calls)
        end
    end.

End GeneralSettings.

(** ** Concrete inputs for the general settings *)
Module GeneralFixtures.
Import GeneralSettings.

(** The stored timezone is UTC; two timezones are known, any other value
    falls back to UTC; every call succeeds. *)
Definition saving_world : world :=
  {| load_settings := Returned (<["timezone" := JStr "UTC"]> ∅);
     get_safe_timezone := λ v,
       match v with
       | JStr tz => if String.eqb tz "Europe/Paris" then tz else "UTC"
       | _ => "UTC"
       end;
     save_settings := λ _, Returned true;
     apply_timezone := λ _, Returned true;
     refresh_timezone_formatters := Returned ();
     int_of_string := λ s, if String.eqb s "24" then Some 24%Z else None;
     update_lock_expiration := λ _, Returned ();
     update_logging_levels := Returned ();
     get_all_settings := Returned (JDict ∅) |}.

(** A form that switches the login off and the timezone to Paris, with
    bypass flags that contradict the mode. *)
Definition submitted_form : gmap string jvalue :=
  <["auth_mode" := JStr "no_login"]>
    (<["local_access_bypass" := JBool true]>
       (<["timezone" := JStr "Europe/Paris"]>
          (<["stateful_management_hours" := JStr "24"]> ∅))).

Definition saved_form : gmap string jvalue :=
  <["proxy_auth_bypass" := JBool true]>
    (<["local_access_bypass" := JBool false]> submitted_form).

End GeneralFixtures.

(** * Properties *)

(** ** The release-date delay *)
Section delay.
Import Radarr.

Lemma should_delay_unparsed parse_date current_time release_date_str delay_days :
  match release_date_str with
  | None | Some "" => True
  | Some s => parse_date s = None
  end →
  should_delay_movie_search parse_date current_time release_date_str delay_days = false.
Proof.
  unfold should_delay_movie_search. intros H.
  destruct (delay_days <=? 0)%Z; [done|].
  destruct release_date_str as [[|a s]|]; [done| |done].
  by rewrite H.
Qed.

Lemma elem_of_delay_loop env delay_days (ms : list movie) m : ∀ i,
  m ∈ delay_loop env delay_days i ms ↔
  ∃ j, ms !! j = Some m ∧
       should_delay_movie_search (parse_date env) (current_time env (i + j))
         (releaseDate m) delay_days = false.
Proof.
  induction ms as [|m' ms IH]; intros i; simpl.
  - split; [by intros ?%elem_of_nil | by intros (j & ? & _)].
  - destruct (should_delay_movie_search _ _ (releaseDate m') _) eqn:Hd.
    + rewrite IH. split.
      * intros (j & Hj & Hk). exists (S j). split; [done|].
        by replace (i + S j) with (S i + j) by lia.
      * intros ([|j] & Hj & Hk); simpl in Hj.
        -- injection Hj as ->. rewrite Nat.add_0_r in Hk. congruence.
        -- exists j. split; [done|].
           by replace (S i + j) with (i + S j) by lia.
    + rewrite elem_of_cons, IH. split.
      * intros [->|(j & Hj & Hk)].
        -- exists 0. split; [done|]. by rewrite Nat.add_0_r.
        -- exists (S j). split; [done|].
           by replace (i + S j) with (S i + j) by lia.
      * intros ([|j] & Hj & Hk); simpl in Hj.
        -- injection Hj as ->. by left.
        -- right. exists j. split; [done|].
           by replace (S i + j) with (i + S j) by lia.
Qed.

Lemma should_delay_not_positive parse_date current_time release_date_str delay_days :
  (delay_days ≤ 0)%Z →
  should_delay_movie_search parse_date current_time release_date_str delay_days = false.
Proof.
  intros Hle. unfold should_delay_movie_search.
  by destruct (Z.leb_spec delay_days 0); [|lia].
Qed.

Lemma elem_of_apply_release_date_delay env s (ms : list movie) m :
  m ∈ apply_release_date_delay env s ms ↔
  ∃ i, ms !! i = Some m ∧
       should_delay_movie_search (parse_date env) (current_time env i)
         (releaseDate m) (release_date_delay_days s) = false.
Proof.
  unfold apply_release_date_delay.
  destruct (Z.ltb_spec 0 (release_date_delay_days s)) as [Hlt|Hle].
  - apply elem_of_delay_loop.
  - split.
    + intros (i & Hi)%list_elem_of_lookup. exists i. split; [done|].
      by apply should_delay_not_positive.
    + intros (i & Hi & _). by eapply list_elem_of_lookup_2.
Qed.




(** Three days of delay on 2024-01-20: the movie released the day before
    waits, the one released five days before does not. *)
Example delay_three_days :
  apply_release_date_delay Fixtures.quiet_env (Fixtures.settings 2 false false 3)
    [Fixtures.old_movie; Fixtures.recent_movie] = [Fixtures.old_movie].
Proof. vm_compute. reflexivity. Qed.

End delay.

(** ** The candidate filters *)
Section filters.
Import Radarr.
Context (env : collaborators) (s : app_settings).

Lemma parsed_release_date_None_unparsed m :
  parsed_release_date env m = None →
  match releaseDate m with
  | None | Some "" => True
  | Some str => parse_date env str = None
  end.
Proof. unfold parsed_release_date. by destruct (releaseDate m) as [[|??]|]. Qed.

Lemma keeps_release_undated m :
  parsed_release_date env m = None →
  keeps_release env s m = process_no_release_dates s.
Proof.
  unfold parsed_release_date, keeps_release.
  destruct (releaseDate m) as [[|??]|]; [done| |done]. by intros ->.
Qed.

Lemma keeps_release_dated m release_date :
  parsed_release_date env m = Some release_date →
  keeps_release env s m = negb (now env <? release_date)%Z.
Proof.
  unfold parsed_release_date, keeps_release.
  destruct (releaseDate m) as [[|??]|]; [done| |done]. by intros ->.
Qed.

Lemma elem_of_filter_future_releases (ms : list movie) m :
  m ∈ filter_future_releases env s ms ↔
  m ∈ ms ∧ (skip_future_releases s = true → keeps_release env s m = true).
Proof.
  unfold filter_future_releases. destruct (skip_future_releases s).
  - rewrite list_elem_of_filter, Is_true_true. split.
    + by intros [? ?].
    + intros [? Hk]. split; [by apply Hk | done].
  - split; [by intros ? | by intros [? _]].
Qed.

Lemma apply_release_date_delay_sub (ms : list movie) m :
  m ∈ apply_release_date_delay env s ms → m ∈ ms.
Proof.
  rewrite elem_of_apply_release_date_delay. intros (i & Hi & _).
  by eapply list_elem_of_lookup_2.
Qed.

Lemma apply_release_date_delay_undated (ms : list movie) m :
  parsed_release_date env m = None →
  m ∈ ms → m ∈ apply_release_date_delay env s ms.
Proof.
  intros Hm (i & Hi)%list_elem_of_lookup.
  apply elem_of_apply_release_date_delay. exists i. split; [done|].
  by apply should_delay_unparsed, parsed_release_date_None_unparsed.
Qed.

Lemma elem_of_unprocessed_movies (fetched : list movie) m :
  m ∈ unprocessed_movies env s fetched ↔
  already_processed env s m = false ∧ m ∈ date_filtered env s fetched.
Proof.
  unfold unprocessed_movies, filter_unprocessed.
  rewrite list_elem_of_filter, Is_true_true, negb_true_iff. done.
Qed.

End filters.

(** ** [random.sample] *)
Section sample.
Context {A : Type}.
Implicit Types pool sel : list A.

Lemma draw_without_replacement_submseteq pool k : ∀ draws,
  random.draw_without_replacement pool k draws ⊆+ pool.
Proof.
  revert pool. induction k as [|k IH]; intros pool draws; simpl.
  - apply submseteq_nil_l.
  - destruct (pool !! _) as [x|] eqn:Hx; [|apply submseteq_nil_l].
    trans (x :: delete (hd 0 draws `mod` length pool) pool).
    + apply submseteq_skip, IH.
    + apply Permutation_submseteq. symmetry. by apply delete_Permutation.
Qed.

Lemma length_draw_without_replacement pool k : ∀ draws,
  k ≤ length pool →
  length (random.draw_without_replacement pool k draws) = k.
Proof.
  revert pool. induction k as [|k IH]; intros pool draws Hk; simpl; [done|].
  destruct (lookup_lt_is_Some_2 pool (hd 0 draws `mod` length pool)) as [x Hx].
  { apply Nat.mod_upper_bound. lia. }
  rewrite Hx. simpl. f_equal. apply IH.
  rewrite length_delete by eauto. lia.
Qed.

Lemma submseteq_NoDup sel pool : sel ⊆+ pool → NoDup pool → NoDup sel.
Proof.
  intros (k & Hk)%submseteq_Permutation Hpool.
  rewrite Hk in Hpool. by apply NoDup_app in Hpool as [? _].
Qed.

Lemma sample_Some population (k : Z) draws sel :
  random.sample population k draws = Some sel →
  (0 ≤ k ≤ Z.of_nat (length population))%Z ∧
  sel = random.draw_without_replacement population (Z.to_nat k) draws.
Proof.
  unfold random.sample.
  destruct (Z.leb_spec 0 k), (Z.leb_spec k (Z.of_nat (length population)));
    simpl; intros [= <-]; split; (lia || done).
Qed.

Lemma sample_submseteq population (k : Z) draws sel :
  random.sample population k draws = Some sel → sel ⊆+ population.
Proof.
  intros [_ ->]%sample_Some. apply draw_without_replacement_submseteq.
Qed.

End sample.

(** A decidable statement about concrete inputs is settled by running its
    decision procedure. *)
Ltac decide_by_running := apply (bool_decide_unpack _); vm_compute; exact I.

(** ** The selection *)
Section selection.
Import Radarr.

(** C1, as the code has it.  A candidate of the batch whose [releaseDate]
    is missing or does not parse is in the pool the sample is drawn from
    exactly when it was not already processed and either
    [process_no_release_dates] is enabled or [skip_future_releases] is
    disabled: the no-date policy is part of the future-release filter and
    is skipped with it. *)
Theorem no_release_date_policy env s (fetched : list movie) m :
  m ∈ fetched →
  parsed_release_date env m = None →
  m ∈ unprocessed_movies env s fetched ↔
  (process_no_release_dates s = true ∨ skip_future_releases s = false) ∧
  already_processed env s m = false.
Proof.
  intros Hin Hdate.
  rewrite elem_of_unprocessed_movies. unfold date_filtered. split.
  - intros [Hnew Hm]. split; [|done].
    apply apply_release_date_delay_sub, elem_of_filter_future_releases in Hm as [_ Hm].
    destruct (skip_future_releases s); [left|by right].
    rewrite <-(keeps_release_undated env s m) by done. by apply Hm.
  - intros [Hpolicy Hnew]. split; [done|].
    apply apply_release_date_delay_undated; [done|].
    apply elem_of_filter_future_releases. split; [done|].
    intros Hskip. rewrite keeps_release_undated by done.
    destruct Hpolicy; congruence.
Qed.

Lemma no_release_date_policy_witness :
  Fixtures.undated_movie ∈
    unprocessed_movies Fixtures.quiet_env (Fixtures.settings 2 true true 0)
      Fixtures.library ↔
  (process_no_release_dates (Fixtures.settings 2 true true 0) = true ∨
   skip_future_releases (Fixtures.settings 2 true true 0) = false) ∧
  already_processed Fixtures.quiet_env (Fixtures.settings 2 true true 0)
    Fixtures.undated_movie = false.
Proof.
  apply (no_release_date_policy Fixtures.quiet_env (Fixtures.settings 2 true true 0)
           Fixtures.library Fixtures.undated_movie).
  - decide_by_running.
  - reflexivity.
Defined.

(** With [skip_future_releases] off and [process_no_release_dates] off, a
    movie without release date is still in the pool. *)
Lemma no_release_date_kept_when_not_skipping :
  Fixtures.undated_movie ∈ Fixtures.library ∧
  parsed_release_date Fixtures.quiet_env Fixtures.undated_movie = None ∧
  process_no_release_dates (Fixtures.settings 2 false false 0) = false ∧
  Fixtures.undated_movie ∈
    unprocessed_movies Fixtures.quiet_env (Fixtures.settings 2 false false 0)
      Fixtures.library ∧
  ¬ (Fixtures.undated_movie ∈
       unprocessed_movies Fixtures.quiet_env (Fixtures.settings 2 false false 0)
         Fixtures.library ↔
     process_no_release_dates (Fixtures.settings 2 false false 0) = true).
Proof.
  assert (Fixtures.undated_movie ∈
            unprocessed_movies Fixtures.quiet_env (Fixtures.settings 2 false false 0)
              Fixtures.library) as Hin.
  { decide_by_running. }
  split; [decide_by_running|].
  split; [reflexivity|]. split; [reflexivity|]. split; [exact Hin|].
  intros [Himp _]. specialize (Himp Hin). discriminate Himp.
Qed.

(** C6.  With [skip_future_releases] enabled, a candidate whose release
    date parses and lies strictly after the clock reading is in no
    selection, whatever the other settings, the processed store and the
    draws are; a candidate whose parsed release date is at or before the
    clock reading passes the future-release filter. *)
Theorem future_release_excluded env s (fetched : list movie) m release_date :
  skip_future_releases s = true →
  parsed_release_date env m = Some release_date →
  ((now env < release_date)%Z →
     (m ∉ filter_future_releases env s fetched) ∧
     (m ∉ unprocessed_movies env s fetched) ∧
     ∀ draws sel,
       select_movies s (unprocessed_movies env s fetched) draws = Some sel → m ∉ sel) ∧
  ((release_date ≤ now env)%Z →
     m ∈ filter_future_releases env s fetched ↔ m ∈ fetched).
Proof.
  intros Hskip Hdate. split.
  - intros Hfuture.
    assert (m ∉ filter_future_releases env s fetched) as Hout.
    { rewrite elem_of_filter_future_releases. intros [_ Hkeep].
      specialize (Hkeep Hskip). rewrite (keeps_release_dated env s m release_date) in Hkeep by done.
      apply negb_true_iff, Z.ltb_ge in Hkeep. lia. }
    assert (m ∉ unprocessed_movies env s fetched) as Hpool.
    { rewrite elem_of_unprocessed_movies. intros [_ Hm].
      by apply apply_release_date_delay_sub in Hm. }
    repeat split; [done..|].
    intros draws sel Hsel Hm. apply Hpool.
    eapply elem_of_submseteq; [done|]. by eapply sample_submseteq.
  - intros Hpast. rewrite elem_of_filter_future_releases. split; [by intros [? _]|].
    intros Hin. split; [done|]. intros _.
    rewrite (keeps_release_dated env s m release_date) by done.
    apply negb_true_iff, Z.ltb_ge. lia.
Qed.

Lemma future_release_excluded_witness :
  (Fixtures.future_movie ∉
     unprocessed_movies Fixtures.quiet_env (Fixtures.settings 5 true true 0)
       Fixtures.library) ∧
  (Fixtures.old_movie ∈
     filter_future_releases Fixtures.quiet_env (Fixtures.settings 5 true true 0)
       Fixtures.library ↔
   Fixtures.old_movie ∈ Fixtures.library).
Proof.
  split.
  - apply (future_release_excluded Fixtures.quiet_env (Fixtures.settings 5 true true 0)
             Fixtures.library Fixtures.future_movie (Fixtures.day 738914));
      [reflexivity | reflexivity | vm_compute; reflexivity].
  - apply (future_release_excluded Fixtures.quiet_env (Fixtures.settings 5 true true 0)
             Fixtures.library Fixtures.old_movie (Fixtures.day 738899));
      [reflexivity | reflexivity | vm_compute; discriminate].
Defined.

(** C2, as the code has it.  For a hunt count that is not negative, the
    selection exists (no error), is a sub-multiset of the remaining
    candidates (no position is drawn twice, so it has no duplicates when
    they have none), and has [min(hunt count, number remaining)] elements;
    a hunt count of 0 selects nothing. *)
Theorem sample_bound s (unprocessed : list movie) draws :
  (0 ≤ hunt_upgrade_movies s)%Z →
  ∃ sel,
    select_movies s unprocessed draws = Some sel ∧
    sel ⊆+ unprocessed ∧
    (NoDup unprocessed → NoDup sel) ∧
    Z.of_nat (length sel) =
      Z.min (hunt_upgrade_movies s) (Z.of_nat (length unprocessed)) ∧
    (hunt_upgrade_movies s = 0%Z → sel = []).
Proof.
  intros Hhunt. unfold select_movies, random.sample.
  set (k := Z.min _ _).
  assert (0 ≤ k ≤ Z.of_nat (length unprocessed))%Z as Hk by (unfold k; lia).
  destruct (Z.leb_spec 0 k); [|lia].
  destruct (Z.leb_spec k (Z.of_nat (length unprocessed))); [|lia]. simpl.
  eexists. split; [done|].
  pose proof (draw_without_replacement_submseteq unprocessed (Z.to_nat k) draws) as Hsub.
  repeat split.
  - done.
  - by apply submseteq_NoDup.
  - rewrite length_draw_without_replacement by lia. lia.
  - intros Hzero. replace k with 0%Z by (unfold k; lia). done.
Qed.

Lemma sample_bound_witness :
  ∃ sel,
    select_movies (Fixtures.settings 2 true false 0) Fixtures.library [3; 1] = Some sel ∧
    sel ⊆+ Fixtures.library ∧
    (NoDup Fixtures.library → NoDup sel) ∧
    Z.of_nat (length sel) =
      Z.min (hunt_upgrade_movies (Fixtures.settings 2 true false 0))
        (Z.of_nat (length Fixtures.library)) ∧
    (hunt_upgrade_movies (Fixtures.settings 2 true false 0) = 0%Z → sel = []).
Proof.
  apply (sample_bound (Fixtures.settings 2 true false 0) Fixtures.library [3; 1]).
  vm_compute. discriminate.
Defined.

(** A negative hunt count makes [random.sample] raise [ValueError], and
    the exception leaves [process_cutoff_upgrades]. *)
Lemma negative_hunt_count_raises :
  (hunt_upgrade_movies (Fixtures.settings (-1) true false 0) ≤ 0)%Z ∧
  unprocessed_movies Fixtures.quiet_env (Fixtures.settings (-1) true false 0)
    Fixtures.library = [Fixtures.old_movie; Fixtures.recent_movie] ∧
  select_movies (Fixtures.settings (-1) true false 0)
    [Fixtures.old_movie; Fixtures.recent_movie] [] = None ∧
  fst (process_cutoff_upgrades Fixtures.quiet_env (Fixtures.settings (-1) true false 0) [] [])
  = Raised (ValueError "Sample larger than population or is negative").
Proof. repeat split; vm_compute; (reflexivity || discriminate). Qed.

End selection.

(** ** The processing loop *)
Section loop.
Import Radarr.
Context (env : collaborators) (s : app_settings).

Lemma searched_app log1 log2 : searched (log1 ++ log2) = searched log1 ++ searched log2.
Proof. apply omap_app. Qed.

Lemma marked_app log1 log2 : marked (log1 ++ log2) = marked log1 ++ marked log2.
Proof. apply omap_app. Qed.

(** One iteration, with the calls written out. *)
Lemma process_movies_cons m rest st log :
  process_movies env s (m :: rest) st log =
    if stop_check env log
    then ((st, StopRequested), log ++ [StopCheck true])
    else
      match check_hourly_cap_exceeded env (log ++ [StopCheck false]) "radarr" with
      | CapAnswer true =>
          ((st, CapReached),
           log ++ [StopCheck false; CheckHourlyCap "radarr" (CapAnswer true)])
      | cap =>
          let '(st', log') :=
            search_movie env s m st
              (log ++ [StopCheck false; CheckHourlyCap "radarr" cap]) in
          process_movies env s rest st' log'
      end.
Proof.
  simpl. unfold bind, ask, ret.
  destruct (stop_check env log); [done|].
  rewrite <-!app_assoc. simpl.
  by destruct (check_hourly_cap_exceeded env _ _) as [[]|].
Qed.

(** The three ways through one iteration. *)
Lemma process_movies_stop m rest st log :
  stop_check env log = true →
  process_movies env s (m :: rest) st log = ((st, StopRequested), log ++ [StopCheck true]).
Proof. intros Hstop. by rewrite process_movies_cons, Hstop. Qed.

Lemma process_movies_cap m rest st log :
  stop_check env log = false →
  check_hourly_cap_exceeded env (log ++ [StopCheck false]) "radarr" = CapAnswer true →
  process_movies env s (m :: rest) st log =
    ((st, CapReached), log ++ [StopCheck false; CheckHourlyCap "radarr" (CapAnswer true)]).
Proof. intros Hstop Hcap. by rewrite process_movies_cons, Hstop, Hcap. Qed.

Lemma process_movies_search m rest st log :
  stop_check env log = false →
  check_hourly_cap_exceeded env (log ++ [StopCheck false]) "radarr" ≠ CapAnswer true →
  process_movies env s (m :: rest) st log =
    let cap := check_hourly_cap_exceeded env (log ++ [StopCheck false]) "radarr" in
    let '(st', log') :=
      search_movie env s m st (log ++ [StopCheck false; CheckHourlyCap "radarr" cap]) in
    process_movies env s rest st' log'.
Proof.
  intros Hstop Hcap. rewrite process_movies_cons, Hstop. simpl.
  by destruct (check_hourly_cap_exceeded env _ _) as [[]|].
Qed.

(** A loop over [prefix ++ rest] runs [rest] from where [prefix] was
    exhausted, and not at all when [prefix] was left by a [break]. *)
Lemma process_movies_app prefix rest : ∀ st log,
  process_movies env s (prefix ++ rest) st log =
    match process_movies env s prefix st log with
    | ((st', Exhausted), log') => process_movies env s rest st' log'
    | stopped => stopped
    end.
Proof.
  induction prefix as [|m prefix IH]; intros st log; [done|].
  rewrite <-app_comm_cons, !process_movies_cons.
  destruct (stop_check env log); [done|].
  destruct (check_hourly_cap_exceeded env _ _) as [[]|]; [done| |];
    destruct (search_movie _ _ _ _ _); apply IH.
Qed.


Lemma date_filtered_nil : date_filtered env s [] = [].
Proof.
  unfold date_filtered, filter_future_releases, apply_release_date_delay.
  by destruct (skip_future_releases s), (0 <? release_date_delay_days s)%Z.
Qed.

Lemma select_movies_nil draws sel : select_movies s [] draws = Some sel → sel = [].
Proof.
  unfold select_movies. intros [_ ->]%sample_Some.
  by destruct (Z.to_nat _).
Qed.

(** Once a selection is drawn, the cycle is the loop over it. *)
Lemma process_cutoff_upgrades_selected draws log fetched sel :
  fetched_movies env s = Some fetched →
  select_movies s (unprocessed_movies env s fetched) draws = Some sel →
  process_cutoff_upgrades env s draws log =
    let '((st, _), log') :=
      process_movies env s sel initial_state (log ++ [fetch_call env s]) in
    (Returned (processed_something st), log').
Proof.
  intros Hfetch Hsel. unfold process_cutoff_upgrades, bind at 1, fetch, ask.
  rewrite Hfetch. unfold unprocessed_movies in Hsel.
  destruct fetched as [|m0 fetched].
  { rewrite date_filtered_nil in Hsel. by apply select_movies_nil in Hsel as ->. }
  destruct (date_filtered env s (m0 :: fetched)) as [|m1 remaining].
  { by apply select_movies_nil in Hsel as ->. }
  destruct (filter_unprocessed env s (m1 :: remaining)) as [|m2 unprocessed].
  { by apply select_movies_nil in Hsel as ->. }
  rewrite Hsel. unfold bind.
  by destruct (process_movies _ _ _ _ _) as [[st ex] log'].
Qed.

(** With nothing left to select from, the cycle ends after the fetch. *)
Lemma process_cutoff_upgrades_empty draws log fetched :
  fetched_movies env s = Some fetched →
  unprocessed_movies env s fetched = [] →
  process_cutoff_upgrades env s draws log = (Returned false, log ++ [fetch_call env s]).
Proof.
  intros Hfetch Hnil. unfold process_cutoff_upgrades, bind at 1, fetch, ask.
  rewrite Hfetch. unfold unprocessed_movies in Hnil.
  destruct fetched as [|m0 fetched]; [done|].
  destruct (date_filtered env s (m0 :: fetched)) as [|m1 remaining]; [done|].
  by rewrite Hnil.
Qed.

End loop.

(** ** The cycle *)
Section cycle.
Import Radarr.

(** A cycle of one search on the quiet instance, call by call. *)
Example cycle_of_one_search :
  process_cutoff_upgrades Fixtures.quiet_env (Fixtures.settings 1 true false 0) [1] [] =
    (Returned true,
     [GetCutoffUnmetMovies "http://radarr:7878" "k" 120 true 50;
      StopCheck false; CheckHourlyCap "radarr" (CapAnswer false);
      MovieSearch 2 true; AddProcessedId "radarr" "Main" "2";
      IncrementStatOnly "radarr" "upgraded";
      TagProcessedMovie 2 "huntarr-upgraded" true;
      LogProcessedMedia "radarr" "Ronin (1998)" 2 "Main" "upgrade"]).
Proof. vm_compute. reflexivity. Qed.

(** A refused search leaves no record, and the next movie is searched. *)
Example refused_search_is_skipped :
  process_cutoff_upgrades Fixtures.refusing_env (Fixtures.settings 2 true false 0) [0; 0] [] =
    (Returned true,
     [GetCutoffUnmetMovies "http://radarr:7878" "k" 120 true 50;
      StopCheck false; CheckHourlyCap "radarr" CapError; MovieSearch 1 false;
      StopCheck false; CheckHourlyCap "radarr" CapError; MovieSearch 2 true;
      AddProcessedId "radarr" "Main" "2";
      IncrementStatOnly "radarr" "upgraded";
      TagProcessedMovie 2 "huntarr-upgraded" true;
      LogProcessedMedia "radarr" "Ronin (1998)" 2 "Main" "upgrade"]).
Proof. vm_compute. reflexivity. Qed.

(** C7.  When the fetch returns nothing ([None] or an empty list), or no
    candidate is left after the future-release, delay and already-processed
    filters, the cycle returns [False] (it does not raise) and has called
    nothing but the fetch: no search is made. *)
Theorem nothing_to_do env s draws log :
  fetched_movies env s = None ∨
  (∃ fetched, fetched_movies env s = Some fetched ∧
     (fetched = [] ∨ date_filtered env s fetched = [] ∨
      unprocessed_movies env s fetched = [])) →
  process_cutoff_upgrades env s draws log = (Returned false, log ++ [fetch_call env s]) ∧
  searched (snd (process_cutoff_upgrades env s draws log)) = searched log ∧
  marked (snd (process_cutoff_upgrades env s draws log)) = marked log.
Proof.
  intros Hnothing.
  assert (process_cutoff_upgrades env s draws log =
            (Returned false, log ++ [fetch_call env s])) as ->.
  { destruct Hnothing as [Hnone|(fetched & Hfetch & Hempty)].
    - unfold process_cutoff_upgrades, bind, fetch, ask. by rewrite Hnone.
    - apply (process_cutoff_upgrades_empty env s draws log fetched Hfetch).
      destruct Hempty as [->|[Hdate|Hun]]; [|by unfold unprocessed_movies; rewrite Hdate|done].
      unfold unprocessed_movies. by rewrite date_filtered_nil. }
  cbn [fst snd]. rewrite searched_app, marked_app. unfold fetch_call. simpl.
  by rewrite !app_nil_r.
Qed.

Lemma nothing_to_do_witness :
  process_cutoff_upgrades Fixtures.quiet_env (Fixtures.settings 2 true false 10) [0; 0] []
  = (Returned false,
     [] ++ [fetch_call Fixtures.quiet_env (Fixtures.settings 2 true false 10)]) ∧
  searched (snd (process_cutoff_upgrades Fixtures.quiet_env
                   (Fixtures.settings 2 true false 10) [0; 0] [])) = searched [] ∧
  marked (snd (process_cutoff_upgrades Fixtures.quiet_env
                 (Fixtures.settings 2 true false 10) [0; 0] [])) = marked [].
Proof.
  apply (nothing_to_do Fixtures.quiet_env (Fixtures.settings 2 true false 10) [0; 0] []).
  right. exists Fixtures.library. split; [reflexivity|].
  right. left. vm_compute. reflexivity.
Defined.

(** C3.  When the loop reaches an item and the hourly cap check answers
    that the cap is exceeded, the cycle ends there: its log ends with that
    check, so neither this item nor a later one is searched for or marked
    processed.  At the first item this means no search at all, nothing
    marked, and [False] returned. *)
Theorem cap_halts_progress env s draws log0 fetched prefix m rest st log :
  fetched_movies env s = Some fetched →
  select_movies s (unprocessed_movies env s fetched) draws = Some (prefix ++ m :: rest) →
  process_movies env s prefix initial_state (log0 ++ [fetch_call env s])
    = ((st, Exhausted), log) →
  stop_check env log = false →
  check_hourly_cap_exceeded env (log ++ [StopCheck false]) "radarr" = CapAnswer true →
  process_cutoff_upgrades env s draws log0
    = (Returned (processed_something st),
       log ++ [StopCheck false; CheckHourlyCap "radarr" (CapAnswer true)]) ∧
  searched (snd (process_cutoff_upgrades env s draws log0)) = searched log ∧
  marked (snd (process_cutoff_upgrades env s draws log0)) = marked log ∧
  (prefix = [] →
     fst (process_cutoff_upgrades env s draws log0) = Returned false ∧
     searched (snd (process_cutoff_upgrades env s draws log0)) = searched log0 ∧
     marked (snd (process_cutoff_upgrades env s draws log0)) = marked log0).
Proof.
  intros Hfetch Hsel Hprefix Hstop Hcap.
  assert (process_cutoff_upgrades env s draws log0 =
            (Returned (processed_something st),
             log ++ [StopCheck false; CheckHourlyCap "radarr" (CapAnswer true)])) as ->.
  { rewrite (process_cutoff_upgrades_selected env s draws log0 fetched _ Hfetch Hsel).
    by rewrite process_movies_app, Hprefix, process_movies_cap. }
  cbn [fst snd]. rewrite searched_app, marked_app. simpl. rewrite !app_nil_r.
  split; [done|]. split; [done|]. split; [done|].
  intros ->. simpl in Hprefix. injection Hprefix as <- <-.
  rewrite searched_app, marked_app. unfold fetch_call. simpl. by rewrite !app_nil_r.
Qed.

Lemma cap_halts_progress_witness :
  process_cutoff_upgrades Fixtures.capped_env (Fixtures.settings 2 true false 0) [0; 0] []
    = (Returned (processed_something initial_state),
       ([] ++ [fetch_call Fixtures.capped_env (Fixtures.settings 2 true false 0)]) ++
       [StopCheck false; CheckHourlyCap "radarr" (CapAnswer true)]) ∧
  searched (snd (process_cutoff_upgrades Fixtures.capped_env
                   (Fixtures.settings 2 true false 0) [0; 0] []))
    = searched ([] ++ [fetch_call Fixtures.capped_env (Fixtures.settings 2 true false 0)]) ∧
  marked (snd (process_cutoff_upgrades Fixtures.capped_env
                 (Fixtures.settings 2 true false 0) [0; 0] []))
    = marked ([] ++ [fetch_call Fixtures.capped_env (Fixtures.settings 2 true false 0)]) ∧
  (@nil movie = [] →
     fst (process_cutoff_upgrades Fixtures.capped_env
            (Fixtures.settings 2 true false 0) [0; 0] []) = Returned false ∧
     searched (snd (process_cutoff_upgrades Fixtures.capped_env
                      (Fixtures.settings 2 true false 0) [0; 0] [])) = searched [] ∧
     marked (snd (process_cutoff_upgrades Fixtures.capped_env
                    (Fixtures.settings 2 true false 0) [0; 0] [])) = marked []).
Proof.
  apply (cap_halts_progress Fixtures.capped_env (Fixtures.settings 2 true false 0)
           [0; 0] [] Fixtures.library [] Fixtures.old_movie [Fixtures.recent_movie]
           initial_state
           ([] ++ [fetch_call Fixtures.capped_env (Fixtures.settings 2 true false 0)]));
    vm_compute; reflexivity.
Defined.

(** C4.  When [stop_check()] answers true at the top of the loop, the
    cycle ends there: its log ends with that check, so neither the item
    reached nor a later one is searched for or marked processed (they stay
    eligible for the next cycle).  At the first item this means no search
    at all, and [False] returned. *)
Theorem stop_request_halts env s draws log0 fetched prefix m rest st log :
  fetched_movies env s = Some fetched →
  select_movies s (unprocessed_movies env s fetched) draws = Some (prefix ++ m :: rest) →
  process_movies env s prefix initial_state (log0 ++ [fetch_call env s])
    = ((st, Exhausted), log) →
  stop_check env log = true →
  process_cutoff_upgrades env s draws log0
    = (Returned (processed_something st), log ++ [StopCheck true]) ∧
  searched (snd (process_cutoff_upgrades env s draws log0)) = searched log ∧
  marked (snd (process_cutoff_upgrades env s draws log0)) = marked log ∧
  (prefix = [] →
     fst (process_cutoff_upgrades env s draws log0) = Returned false ∧
     searched (snd (process_cutoff_upgrades env s draws log0)) = searched log0 ∧
     marked (snd (process_cutoff_upgrades env s draws log0)) = marked log0).
Proof.
  intros Hfetch Hsel Hprefix Hstop.
  assert (process_cutoff_upgrades env s draws log0 =
            (Returned (processed_something st), log ++ [StopCheck true])) as ->.
  { rewrite (process_cutoff_upgrades_selected env s draws log0 fetched _ Hfetch Hsel).
    by rewrite process_movies_app, Hprefix, process_movies_stop. }
  cbn [fst snd]. rewrite searched_app, marked_app. simpl. rewrite !app_nil_r.
  split; [done|]. split; [done|]. split; [done|].
  intros ->. simpl in Hprefix. injection Hprefix as <- <-.
  rewrite searched_app, marked_app. unfold fetch_call. simpl. by rewrite !app_nil_r.
Qed.

Lemma stop_request_halts_witness :
  process_cutoff_upgrades Fixtures.stopping_env (Fixtures.settings 2 true false 0) [0; 0] []
    = (Returned (processed_something (fst (fst Fixtures.after_first_movie))),
       snd Fixtures.after_first_movie ++ [StopCheck true]) ∧
  searched (snd (process_cutoff_upgrades Fixtures.stopping_env
                   (Fixtures.settings 2 true false 0) [0; 0] []))
    = searched (snd Fixtures.after_first_movie) ∧
  marked (snd (process_cutoff_upgrades Fixtures.stopping_env
                 (Fixtures.settings 2 true false 0) [0; 0] []))
    = marked (snd Fixtures.after_first_movie) ∧
  ([Fixtures.old_movie] = [] →
     fst (process_cutoff_upgrades Fixtures.stopping_env
            (Fixtures.settings 2 true false 0) [0; 0] []) = Returned false ∧
     searched (snd (process_cutoff_upgrades Fixtures.stopping_env
                      (Fixtures.settings 2 true false 0) [0; 0] [])) = searched [] ∧
     marked (snd (process_cutoff_upgrades Fixtures.stopping_env
                    (Fixtures.settings 2 true false 0) [0; 0] [])) = marked []).
Proof.
  apply (stop_request_halts Fixtures.stopping_env (Fixtures.settings 2 true false 0)
           [0; 0] [] Fixtures.library [Fixtures.old_movie] Fixtures.recent_movie []
           (fst (fst Fixtures.after_first_movie)) (snd Fixtures.after_first_movie));
    vm_compute; reflexivity.
Defined.



End cycle.

(** ** The cycle-reset route *)
Section reset.
Import WebServer.

Lemma error_response_spec msg code :
  status (error_response msg code) = code ∧
  body (error_response msg code) !! "success" = Some (VBool false) ∧
  body (error_response msg code) !! "error" = Some (VStr msg).
Proof.
  unfold error_response. simpl. split; [done|]. split.
  - by rewrite lookup_insert_eq.
  - by rewrite lookup_insert_ne, lookup_insert_eq.
Qed.

Lemma trigger_reset_spec w app_name :
  (status (fst (trigger_reset w app_name)) = 200 ∨
   status (fst (trigger_reset w app_name)) = 500)%Z ∧
  (∀ c, c ∈ snd (trigger_reset w app_name) → c = CreateResetRequest app_name) ∧
  (get_database w = Some () →
   snd (trigger_reset w app_name) = [CreateResetRequest app_name]).
Proof.
  unfold trigger_reset.
  destruct (get_database w) as [[]|]; [destruct (create_reset_request w app_name) as [[]|[]]|];
    simpl; (split; [auto|]); (split; [|done]); intros c Hc;
    by (apply list_elem_of_singleton in Hc || apply elem_of_nil in Hc).
Qed.

Lemma swaparr_known : "swaparr" ∈ known_apps.
Proof. decide_by_running. Qed.

(** C9.  The route answers 400 with ['success': False] and an error
    message, and creates no reset request, exactly when the app is not one
    of the known services, or it is swaparr and swaparr is not enabled, or
    it is another service that is not configured.  A reset request is only
    ever created for the named app, and only when none of the three holds;
    it is then created as soon as the database can be reached. *)
Theorem reset_app_cycle_not_configured w app_name :
  (status (fst (reset_app_cycle w app_name)) = 400%Z ↔
     app_name ∉ known_apps ∨
     (app_name = "swaparr" ∧ swaparr_disabled w = true) ∨
     (app_name ≠ "swaparr" ∧ app_name ∉ get_configured_apps w)) ∧
  (status (fst (reset_app_cycle w app_name)) = 400%Z →
     body (fst (reset_app_cycle w app_name)) !! "success" = Some (VBool false) ∧
     (∃ msg, body (fst (reset_app_cycle w app_name)) !! "error" = Some (VStr msg)) ∧
     snd (reset_app_cycle w app_name) = []) ∧
  (∀ c, c ∈ snd (reset_app_cycle w app_name) →
     c = CreateResetRequest app_name ∧
     app_name ∈ known_apps ∧
     (app_name = "swaparr" → swaparr_disabled w = false) ∧
     (app_name ≠ "swaparr" → app_name ∈ get_configured_apps w)) ∧
  (status (fst (reset_app_cycle w app_name)) ≠ 400%Z →
     get_database w = Some () →
     snd (reset_app_cycle w app_name) = [CreateResetRequest app_name]).
Proof.
  pose proof (trigger_reset_spec w app_name) as (Hstatus & Hcalls & Hcreated).
  unfold reset_app_cycle.
  destruct (bool_decide_reflect (app_name ∈ known_apps)) as [Hknown|Hunknown]; simpl.
  2:{ split; [by split; [left|]|]. split; [|split].
      - intros _. destruct (error_response_spec ("Invalid app name: " +:+ app_name) 400)
          as (_ & ? & ?). eauto.
      - by intros c ?%elem_of_nil.
      - done. }
  destruct (String.eqb_spec app_name "swaparr") as [->|Hother].
  - destruct (swaparr_disabled w) eqn:Hdis; simpl.
    + split; [by split; [right; left|]|]. split; [|split].
      * intros _. destruct (error_response_spec ("swaparr" +:+ " is not enabled") 400)
          as (_ & ? & ?). eauto.
      * by intros c ?%elem_of_nil.
      * done.
    + split; [|split; [|split]].
      * split; [lia|]. intros [?|[[_ ?]|[? _]]]; done.
      * lia.
      * intros c Hc%Hcalls. by repeat split.
      * intros _. apply Hcreated.
  - destruct (bool_decide_reflect (app_name ∈ get_configured_apps w)) as [Hconf|Hnot]; simpl.
    + split; [|split; [|split]].
      * split; [lia|]. intros [?|[[? _]|[_ ?]]]; done.
      * lia.
      * intros c Hc%Hcalls. by repeat split.
      * intros _. apply Hcreated.
    + split; [by split; [right; right|]|]. split; [|split].
      * intros _. destruct (error_response_spec (app_name +:+ " is not configured") 400)
          as (_ & ? & ?). eauto.
      * by intros c ?%elem_of_nil.
      * done.
Qed.

Example reset_unknown_app :
  status (fst (reset_app_cycle Fixtures.reset_world "plex")) = 400%Z ∧
  snd (reset_app_cycle Fixtures.reset_world "plex") = [].
Proof. split; vm_compute; reflexivity. Qed.

Example reset_unconfigured_app :
  status (fst (reset_app_cycle Fixtures.reset_world "sonarr")) = 400%Z ∧
  snd (reset_app_cycle Fixtures.reset_world "sonarr") = [].
Proof. split; vm_compute; reflexivity. Qed.

Example reset_enabled_swaparr :
  status (fst (reset_app_cycle Fixtures.reset_world "swaparr")) = 200%Z ∧
  snd (reset_app_cycle Fixtures.reset_world "swaparr") = [CreateResetRequest "swaparr"].
Proof. split; vm_compute; reflexivity. Qed.

End reset.

(** ** The Prowlarr connection test *)
Section connection.
Import Prowlarr.

Lemma failure_reports_outcome error_msg : reports_outcome (failure error_msg).
Proof.
  exists false. unfold failure. split.
  - by rewrite lookup_insert_eq.
  - intros _. exists error_msg. by rewrite lookup_insert_ne, lookup_insert_eq.
Qed.

Lemma socket_test_reports_outcome net hostname port result :
  socket_test net hostname port = Some result → reports_outcome result.
Proof.
  unfold socket_test. intros Hres.
  repeat case_match; simplify_eq; apply failure_reports_outcome.
Qed.

Lemma read_json_reports_outcome response result :
  read_json response = Returned result → reports_outcome result.
Proof.
  unfold read_json. intros Hres. repeat case_match; simplify_eq.
  - exists true. split; [by rewrite lookup_insert_eq | done].
  - apply failure_reports_outcome.
Qed.

Lemma check_response_reports_outcome test_url response result :
  check_response test_url response = Returned result → reports_outcome result.
Proof.
  unfold check_response. intros Hres.
  repeat case_match; simplify_eq; try apply failure_reports_outcome.
  destruct (raise_for_status test_url response); [simpl in Hres|done].
  by eapply read_json_reports_outcome.
Qed.

(** What leaves the [try] body as a value is a well-formed result. *)
Lemma try_body_reports_outcome net url api_key timeout result :
  try_body net url api_key timeout = Returned result → reports_outcome result.
Proof.
  unfold try_body. intros Hres.
  destruct (urlparse net url) as [parsed_url|]; [|done].
  destruct (port parsed_url) as [p|]; [|done].
  destruct (socket_test net _ _) as [d|] eqn:Hsock.
  { simplify_eq. by eapply socket_test_reports_outcome. }
  destruct (get_ssl_verify_setting net) as [verify_ssl|]; [simpl in Hres|done].
  destruct (requests_get net _ _ _ _) as [response|]; [simpl in Hres|done].
  by eapply check_response_reports_outcome.
Qed.

(** A [requests] connection error can only leave the [try] body after
    [urlparse] has accepted the url. *)
Lemma try_body_connection_error net url api_key timeout e :
  try_body net url api_key timeout = Raised e →
  is_connection_error e = true →
  ∃ parsed, urlparse net url = Returned parsed.
Proof.
  unfold try_body. intros Hres Hconn.
  destruct (urlparse net url) as [parsed_url|]; [by eexists|].
  by simplify_eq.
Qed.

Lemma handle_reports_outcome net url timeout e :
  (is_connection_error e = true → ∃ parsed, urlparse net url = Returned parsed) →
  ∃ result, handle net url timeout e = Returned result ∧ reports_outcome result.
Proof.
  intros Hparsed. unfold handle.
  destruct (is_timeout e); [eauto using failure_reports_outcome|].
  destruct (is_connection_error e).
  - destruct Hparsed as [parsed ->]; [done|].
    repeat case_match; eauto using failure_reports_outcome.
  - destruct (is_request_exception e); eauto using failure_reports_outcome.
Qed.

(** C10.  Whatever the url, the key and the timeout, and whatever the
    socket, the settings and the HTTP request answer or raise,
    [test_connection] returns a dict (no exception reaches the caller)
    with a boolean under ['success'], and with a string under ['message']
    whenever that boolean is false. *)
Theorem test_connection_always_reports net url api_key timeout :
  ∃ result success,
    test_connection net url api_key timeout = Returned result ∧
    result !! "success" = Some (VBool success) ∧
    (success = false → ∃ message, result !! "message" = Some (VStr message)).
Proof.
  unfold test_connection.
  destruct (try_body net (correct_url url) api_key timeout) as [result|e] eqn:Hbody.
  - destruct (try_body_reports_outcome _ _ _ _ _ Hbody) as (success & ? & ?). eauto.
  - destruct (handle_reports_outcome net (correct_url url) timeout e)
      as (result & -> & success & ? & ?); [|eauto].
    by eapply try_body_connection_error.
Qed.

End connection.

(** * Further properties of the code *)

(** ** What a cycle's log says *)
Section cycle_log.
Import Radarr RadarrLog.
Context (env : collaborators) (s : app_settings).

Lemma accepted_app log1 log2 : accepted (log1 ++ log2) = accepted log1 ++ accepted log2.
Proof. apply omap_app. Qed.

Lemma tagged_app log1 log2 : tagged (log1 ++ log2) = tagged log1 ++ tagged log2.
Proof. apply omap_app. Qed.

Lemma recorded_app log1 log2 : recorded (log1 ++ log2) = recorded log1 ++ recorded log2.
Proof. apply omap_app. Qed.

(** The calls of one search, read through each of the projections. *)
Lemma search_movie_log m st log :
  ∃ effects,
    let ok := movie_search env log (id m) in
    search_movie env s m st log =
      (if ok
       then {| processed_count := S (processed_count st); processed_something := true |}
       else st,
       log ++ MovieSearch (id m) ok :: effects) ∧
    searched effects = [] ∧
    marked effects = (if ok then [pretty (id m)] else []) ∧
    tagged effects = (if ok && tag_processed_items env then [id m] else []) ∧
    recorded effects = (if ok then [id m] else []).
Proof.
  unfold search_movie, bind, ask.
  destruct (movie_search env log (id m)).
  - unfold record_success, bind, tell, ask, ret.
    destruct (tag_processed_items env); simpl;
      rewrite <-!app_assoc; simpl; eexists; (split; [reflexivity|]); done.
  - exists []. unfold ret. by rewrite app_nil_r || done.
Qed.

(** The side conditions of an iteration that searched for nothing. *)
Local Ltac idle_log :=
  solve [ by destruct (tag_processed_items env)
        | simpl; lia
        | by rewrite orb_false_r ].

(** The log of the loop: what it searched for, and what it recorded. *)
Lemma process_movies_log ms : ∀ st log,
  ∃ new st' ex n,
    process_movies env s ms st log = ((st', ex), log ++ new) ∧
    searched new = id <$> take n ms ∧
    marked new = pretty <$> accepted new ∧
    tagged new = (if tag_processed_items env then accepted new else []) ∧
    recorded new = accepted new ∧
    processed_count st' = processed_count st + length (accepted new) ∧
    processed_something st' =
      processed_something st || bool_decide (accepted new ≠ []) ∧
    guarded new.
Proof.
  induction ms as [|m ms IH]; intros st log.
  { exists [], st, Exhausted, 0. rewrite app_nil_r. simpl.
    repeat split; try done; try idle_log.
    all: intros before i ok after Heq; by destruct before. }
  destruct (stop_check env log) eqn:Hstop.
  { rewrite process_movies_stop by done.
    exists [StopCheck true], st, StopRequested, 0. simpl.
    repeat split; try done; try idle_log.
    all: intros [|? [|? ?]] i ok after Heq; simplify_eq; by destruct l. }
  set (cap := check_hourly_cap_exceeded env (log ++ [StopCheck false]) "radarr").
  assert (cap = CapAnswer true ∨ cap ≠ CapAnswer true) as [Hcap|Hcap].
  { destruct cap as [[]|]; auto. }
  { rewrite process_movies_cap by done.
    exists [StopCheck false; CheckHourlyCap "radarr" (CapAnswer true)], st, CapReached, 0.
    simpl. repeat split; try done; try idle_log.
    all: intros [|? [|? [|? ?]]] i ok after Heq; simplify_eq; by destruct l. }
  rewrite process_movies_search by done. cbv zeta. fold cap.
  set (log1 := log ++ [StopCheck false; CheckHourlyCap "radarr" cap]).
  destruct (search_movie_log m st log1) as (effects & Hsearch & Hs & Hm & Ht & Hr).
  cbv zeta in Hsearch. rewrite Hsearch. clear Hsearch.
  set (ok := movie_search env log1 (id m)) in *.
  set (st1 := if ok then _ else st).
  destruct (IH st1 (log1 ++ MovieSearch (id m) ok :: effects))
    as (new & st' & ex & n & Heq & Hs' & Hm' & Ht' & Hr' & Hc' & Hp' & Hg').
  exists ([StopCheck false; CheckHourlyCap "radarr" cap] ++
          MovieSearch (id m) ok :: effects ++ new), st', ex, (S n).
  split.
  { rewrite Heq. f_equal. unfold log1. by rewrite <-!app_assoc. }
  simpl.
  rewrite searched_app, marked_app, accepted_app, tagged_app, recorded_app.
  rewrite Hs, Hm, Ht, Hr, Hs', Hm', Ht', Hr', Hc', Hp'.
  assert (accepted effects = []) as Hacc.
  { apply (f_equal length) in Hs. revert Hs. unfold searched, accepted.
    clear. induction effects as [|[] effects IH]; simpl; intros; try done; auto. }
  rewrite Hacc. simpl.
  split; [done|].
  split; [by destruct ok|].
  split; [by destruct ok, (tag_processed_items env)|].
  split; [by destruct ok|].
  split; [unfold st1; destruct ok; simpl; lia|].
  split.
  { unfold st1. destruct ok; simpl; [|done].
    by rewrite orb_true_r. }
  intros [|a [|b [|c before]]] i ok' after Hsplit; simpl in Hsplit;
    [discriminate Hsplit|discriminate Hsplit| |].
  { injection Hsplit as <- <- _ _ _. by exists [], cap. }
  injection Hsplit as <- <- <- Hsplit.
  apply app_eq_inv in Hsplit as [(k & Heff & Hk)|(k & Hbefore & Hnew)].
  - destruct k as [|x k].
    + simpl in Hk. destruct (Hg' [] i ok' after) as (before' & ? & Hnil & _); [done|].
      by destruct before'.
    + injection Hk as <- _. rewrite Heff, searched_app in Hs.
      simpl in Hs. by apply app_nil in Hs as [_ ?].
  - destruct (Hg' _ _ _ _ Hnew) as (before' & cap' & -> & Hcap').
    exists ([StopCheck false; CheckHourlyCap "radarr" cap; MovieSearch (id m) ok] ++
            effects ++ before'), cap'.
    split; [|done]. rewrite Hbefore. simpl. by rewrite <-app_assoc.
Qed.

(** Without a selection the cycle stops after the fetch. *)
Lemma process_cutoff_upgrades_unselected draws log :
  (fetched_movies env s ≫= λ fetched,
     select_movies s (unprocessed_movies env s fetched) draws) = None →
  snd (process_cutoff_upgrades env s draws log) = log ++ [fetch_call env s] ∧
  fst (process_cutoff_upgrades env s draws log) ≠ Returned true.
Proof.
  intros Hnone. unfold process_cutoff_upgrades, bind, fetch, ask, ret.
  destruct (fetched_movies env s) as [fetched|]; [|by split].
  simpl in Hnone. unfold unprocessed_movies in Hnone.
  destruct fetched as [|m0 fetched]; [by split|].
  destruct (date_filtered env s (m0 :: fetched)) as [|m1 remaining]; [by split|].
  destruct (filter_unprocessed env s (m1 :: remaining)) as [|m2 unprocessed]; [by split|].
  rewrite Hnone. by split.
Qed.

(** The log of a whole cycle: the fetch, then the loop over the selection. *)
Lemma process_cutoff_upgrades_log draws log :
  ∃ new n,
    snd (process_cutoff_upgrades env s draws log) = log ++ fetch_call env s :: new ∧
    searched new =
      id <$> take n (default [] (fetched_movies env s ≫= λ fetched,
                        select_movies s (unprocessed_movies env s fetched) draws)) ∧
    marked new = pretty <$> accepted new ∧
    tagged new = (if tag_processed_items env then accepted new else []) ∧
    recorded new = accepted new ∧
    guarded new ∧
    match fst (process_cutoff_upgrades env s draws log) with
    | Returned b => b = bool_decide (accepted new ≠ [])
    | Raised _ => new = []
    end.
Proof.
  destruct (fetched_movies env s ≫= λ fetched,
              select_movies s (unprocessed_movies env s fetched) draws)
    as [sel|] eqn:Hsel.
  - destruct (fetched_movies env s) as [fetched|] eqn:Hfetch; [|done].
    simpl in Hsel.
    rewrite (process_cutoff_upgrades_selected env s draws log fetched sel Hfetch Hsel).
    destruct (process_movies_log sel initial_state (log ++ [fetch_call env s]))
      as (new & st' & ex & n & -> & Hs & Hm & Ht & Hr & _ & Hp & Hg).
    exists new, n. simpl. rewrite <-app_assoc. by repeat split.
  - destruct (process_cutoff_upgrades_unselected draws log Hsel) as [Hlog Hret].
    exists [], 0. rewrite Hlog. repeat split; try done.
    + by destruct (tag_processed_items env).
    + intros before i ok after Heq. by destruct before.
    + destruct (fst _) as [[]|]; done.
Qed.

End cycle_log.

(** ** A cycle, seen from its log *)
Section cycle_extras.
Import Radarr RadarrLog.

(** The selection a cycle draws, when it gets to draw one. *)
Local Abbreviation selection env s draws :=
  (default [] (fetched_movies env s ≫= λ fetched,
                 select_movies s (unprocessed_movies env s fetched) draws)).

Lemma searched_fetch_call env s new : searched (fetch_call env s :: new) = searched new.
Proof. done. Qed.

Lemma selection_submseteq env s draws :
  selection env s draws ⊆+
    default [] (unprocessed_movies env s <$> fetched_movies env s).
Proof.
  destruct (fetched_movies env s) as [fetched|]; simpl; [|done].
  destruct (select_movies s _ draws) as [sel|] eqn:Hsel; simpl.
  - by eapply sample_submseteq.
  - apply submseteq_nil_l.
Qed.

Lemma length_selection env s draws :
  length (selection env s draws) ≤ Z.to_nat (hunt_upgrade_movies s).
Proof.
  destruct (fetched_movies env s) as [fetched|]; simpl; [|lia].
  destruct (select_movies s _ draws) as [sel|] eqn:Hsel; simpl; [|lia].
  apply sample_Some in Hsel as [Hk ->].
  rewrite length_draw_without_replacement; lia.
Qed.

(** X1.  [process_cutoff_upgrades] returns [True] exactly when one of the
    searches it made in this cycle was accepted; and when it raises, it
    had made no search. *)
Theorem returns_true_iff_a_search_was_accepted env s draws log :
  ∃ new,
    snd (process_cutoff_upgrades env s draws log) = log ++ new ∧
    match fst (process_cutoff_upgrades env s draws log) with
    | Returned b => b = true ↔ accepted new ≠ []
    | Raised _ => searched new = []
    end.
Proof.
  destruct (process_cutoff_upgrades_log env s draws log)
    as (new & n & Hlog & _ & _ & _ & _ & _ & Hret).
  exists (fetch_call env s :: new). split; [done|].
  destruct (fst _) as [b|e].
  - rewrite Hret. unfold fetch_call. simpl. apply bool_decide_eq_true.
  - by rewrite Hret.
Qed.

(** X2.  In the calls of a cycle, the ids marked as processed are the ids
    of the accepted searches, in the same order (as decimal strings); so
    are the ids entered in the history; and the ids a tag was requested
    for are those same ids when tagging is switched on, and none when it
    is off. *)
Theorem accepted_searches_are_recorded env s draws log :
  ∃ new,
    snd (process_cutoff_upgrades env s draws log) = log ++ new ∧
    marked new = pretty <$> accepted new ∧
    recorded new = accepted new ∧
    tagged new = (if tag_processed_items env then accepted new else []).
Proof.
  destruct (process_cutoff_upgrades_log env s draws log)
    as (new & n & Hlog & _ & Hm & Ht & Hr & _ & _).
  exists (fetch_call env s :: new). by repeat split.
Qed.

(** X3.  A cycle makes at most [hunt_upgrade_movies] searches (none when
    that setting is zero or negative). *)
Theorem searches_within_hunt_count env s draws log :
  ∃ new,
    snd (process_cutoff_upgrades env s draws log) = log ++ new ∧
    length (searched new) ≤ Z.to_nat (hunt_upgrade_movies s).
Proof.
  destruct (process_cutoff_upgrades_log env s draws log)
    as (new & n & Hlog & Hs & _).
  exists (fetch_call env s :: new). split; [done|].
  rewrite searched_fetch_call, Hs, length_fmap.
  etrans; [|apply (length_selection env s draws)].
  rewrite length_take. lia.
Qed.

(** X4.  The movies a cycle searches for are drawn, each position at most
    once, from the fetched movies that passed the filters: every one of
    them is in the fetched batch, was not already processed, and (with
    [skip_future_releases] on) was kept by the future-release filter. *)
Theorem searches_come_from_the_pool env s draws log :
  ∃ new,
    snd (process_cutoff_upgrades env s draws log) = log ++ new ∧
    searched new ⊆+
      (id <$> default [] (unprocessed_movies env s <$> fetched_movies env s)) ∧
    ∀ i, i ∈ searched new →
      ∃ fetched m,
        fetched_movies env s = Some fetched ∧ m ∈ fetched ∧ id m = i ∧
        already_processed env s m = false ∧
        (skip_future_releases s = true → keeps_release env s m = true).
Proof.
  destruct (process_cutoff_upgrades_log env s draws log)
    as (new & n & Hlog & Hs & _).
  exists (fetch_call env s :: new). split; [done|].
  rewrite searched_fetch_call, Hs.
  assert (id <$> take n (selection env s draws) ⊆+
          id <$> default [] (unprocessed_movies env s <$> fetched_movies env s))
    as Hsub.
  { apply fmap_submseteq. etrans; [|apply selection_submseteq].
    apply sublist_submseteq, sublist_take. }
  split; [done|].
  intros i Hi. eapply elem_of_submseteq in Hi; [|exact Hsub].
  apply list_elem_of_fmap in Hi as (m & -> & Hm).
  destruct (fetched_movies env s) as [fetched|]; simpl in Hm; [|by apply elem_of_nil in Hm].
  apply elem_of_unprocessed_movies in Hm as [Hnew Hm].
  apply apply_release_date_delay_sub, elem_of_filter_future_releases in Hm as [Hin Hkeep].
  by exists fetched, m.
Qed.

(** X5.  Every search of a cycle comes right after a stop check that
    answered no and an hourly-cap check that did not answer "exceeded"
    (it answered no, or failed). *)
Theorem every_search_is_guarded env s draws log :
  ∃ new,
    snd (process_cutoff_upgrades env s draws log) = log ++ new ∧
    guarded new.
Proof.
  destruct (process_cutoff_upgrades_log env s draws log)
    as (new & n & Hlog & _ & _ & _ & _ & Hg & _).
  exists (fetch_call env s :: new). split; [done|].
  intros [|c before] i ok after Heq; [done|].
  injection Heq as <- Heq.
  destruct (Hg _ _ _ _ Heq) as (before' & cap & -> & Hcap).
  by exists (fetch_call env s :: before'), cap.
Qed.

End cycle_extras.

(** ** The filters, once more *)
Section filter_extras.
Import Radarr.

(** X6.  Once [should_delay_movie_search] lets a movie through it keeps
    letting it through: if a search is not delayed at some time, it is not
    delayed at any later time (same release date, same delay). *)
Theorem ready_stays_ready parse_date release_date_str delay_days earlier later :
  should_delay_movie_search parse_date earlier release_date_str delay_days = false →
  (earlier ≤ later)%Z →
  should_delay_movie_search parse_date later release_date_str delay_days = false.
Proof.
  unfold should_delay_movie_search. intros Hready Hle.
  destruct (delay_days <=? 0)%Z; [done|].
  destruct release_date_str as [[|a str]|]; [done| |done].
  destruct (parse_date (String a str)) as [release_date|]; [|done].
  destruct (search_start_time release_date delay_days) as [start|]; [|done].
  apply Z.ltb_ge in Hready. apply Z.ltb_ge. lia.
Qed.

Lemma ready_stays_ready_witness :
  should_delay_movie_search Fixtures.parse_three_dates (Fixtures.day 738910)
    (Some "2024-01-19T00:00:00Z") 3 = false.
Proof.
  apply (ready_stays_ready Fixtures.parse_three_dates (Some "2024-01-19T00:00:00Z") 3
           (Fixtures.day 738906) (Fixtures.day 738910)).
  - vm_compute. reflexivity.
  - vm_compute. discriminate.
Defined.

Lemma delay_loop_sublist env delay_days (ms : list movie) : ∀ i,
  delay_loop env delay_days i ms `sublist_of` ms.
Proof.
  induction ms as [|m ms IH]; intros i; simpl; [done|].
  destruct (should_delay_movie_search _ _ _ _).
  - apply sublist_cons, IH.
  - apply sublist_skip, IH.
Qed.

(** X7.  The filters only remove: the movies left after the
    future-release and delay filters, and the pool left after the
    already-processed filter, are sublists of the fetched batch (same
    movies, same order, nothing added). *)
Theorem filters_only_remove env s (fetched : list movie) :
  date_filtered env s fetched `sublist_of` fetched ∧
  unprocessed_movies env s fetched `sublist_of` date_filtered env s fetched ∧
  unprocessed_movies env s fetched `sublist_of` fetched.
Proof.
  assert (date_filtered env s fetched `sublist_of` fetched) as Hdate.
  { unfold date_filtered, apply_release_date_delay, filter_future_releases.
    destruct (0 <? release_date_delay_days s)%Z, (skip_future_releases s);
      try done;
      try (etrans; [apply delay_loop_sublist|]);
      try apply sublist_filter; done. }
  assert (unprocessed_movies env s fetched `sublist_of` date_filtered env s fetched)
    as Hun by apply sublist_filter.
  split; [done|]. split; [done|]. by etrans.
Qed.

End filter_extras.

(** ** The Prowlarr routes *)
Section prowlarr_routes.
Import Prowlarr ProwlarrRoutes.

Lemma test_connection_reports net url api_key timeout :
  ∃ result,
    test_connection net url api_key timeout = Returned result ∧ reports_outcome result.
Proof.
  unfold test_connection.
  destruct (try_body net (correct_url url) api_key timeout) as [result|e] eqn:Hbody.
  - exists result. split; [done|]. by eapply try_body_reports_outcome.
  - apply handle_reports_outcome. by eapply try_body_connection_error.
Qed.

Lemma status_of_message_codes message :
  (status_of_message message = 401 ∨ status_of_message message = 403 ∨
   status_of_message message = 404 ∨ status_of_message message = 504 ∨
   status_of_message message = 500)%Z.
Proof. unfold status_of_message. repeat case_match; auto. Qed.

Lemma test_connection_json_reports net py url api_key timeout :
  ∃ result,
    test_connection_json net py url api_key timeout = Returned result ∧
    reports_outcome result.
Proof.
  unfold test_connection_json.
  destruct url as [| | |u| |]; try (eexists; split; [done|apply failure_reports_outcome]).
  set (net_json := {| urlparse := urlparse net;
                      socket_connect_ex := socket_connect_ex net;
                      get_ssl_verify_setting := get_ssl_verify_setting net;
                      Prowlarr.requests_get := λ test_url _ _ verify_ssl,
                        requests_get_json py test_url api_key timeout verify_ssl |}).
  assert (∃ result,
            match try_body net_json (correct_url u) "" 0 with
            | Returned result => Returned result
            | Raised e =>
                if is_timeout e
                then Returned (failure ("Connection timed out after " +:+
                                        format py timeout +:+ " seconds"))
                else handle net (correct_url u) 0 e
            end = Returned result ∧ reports_outcome result) as Hloose.
  { destruct (try_body net_json (correct_url u) "" 0) as [result|e] eqn:Hbody.
    - exists result. split; [done|]. by eapply try_body_reports_outcome.
    - destruct (is_timeout e); [eauto using failure_reports_outcome|].
      apply handle_reports_outcome. intros Hconn.
      by apply (try_body_connection_error net_json _ _ _ _ Hbody). }
  destruct api_key as [| | |k| |]; try exact Hloose.
  destruct timeout as [| |t| | |]; try exact Hloose.
  apply test_connection_reports.
Qed.

(** X8.  For a request whose body decodes to a JSON object, whatever the
    types of its entries, [test_connection_endpoint] answers with a
    result dict; the status is 200 exactly when the dict says
    ['success': True], 400 exactly when the url or the key is missing or
    falsy, and otherwise one of 401, 403, 404, 504, 500.  The view has no
    handler of its own: when [request.json] raises, that exception leaves
    it, and a body that is no object (null, a list, a string, a number)
    makes [data.get] raise [AttributeError]. *)
Theorem test_connection_endpoint_status net py request_json :
  match request_json with
  | Raised e => test_connection_endpoint net py request_json = Raised e
  | Returned (JDict data) =>
      ∃ body status,
        test_connection_endpoint net py request_json = Returned (body, status) ∧
        reports_outcome body ∧
        (status = 200%Z ↔ body !! "success" = Some (VBool true)) ∧
        (status = 400%Z ↔
           Py.truth (default JNull (data !! "api_url")) = false ∨
           Py.truth (default JNull (data !! "api_key")) = false) ∧
        status ∈ [200; 400; 401; 403; 404; 504; 500]%Z
  | Returned other =>
      test_connection_endpoint net py request_json = Raised (Py.no_attribute other "get")
  end.
Proof.
  destruct request_json as [[| | | | |data]|e]; try done.
  unfold test_connection_endpoint. simpl.
  destruct (Py.truth (default JNull (data !! "api_url"))) eqn:Hurl;
    [destruct (Py.truth (default JNull (data !! "api_key"))) eqn:Hkey|]; simpl.
  2,3: exists (failure "API URL and API Key are required"), 400%Z;
       (split; [done|]);
       (split; [apply failure_reports_outcome|]);
       (split; [split; [done|]; unfold failure; by rewrite lookup_insert_eq|]);
       (split; [split; auto|decide_by_running]).
  destruct (test_connection_json_reports net py (default JNull (data !! "api_url"))
              (default JNull (data !! "api_key"))
              (default (JInt 30) (data !! "api_timeout")))
    as (result & -> & success & Hsuccess & Hmessage).
  simpl. unfold subscript. rewrite Hsuccess. simpl. destruct success; simpl.
  - exists result, 200%Z. split; [done|]. split; [by exists true|].
    split; [done|]. split; [|decide_by_running].
    split; [done|]. by intros [|].
  - destruct Hmessage as [message Hmsg]; [done|]. rewrite Hmsg. simpl.
    pose proof (status_of_message_codes message) as Hcodes.
    exists result, (status_of_message message). split; [done|].
    split; [by exists false; eauto|].
    split; [|split].
    + split; [lia|by rewrite Hsuccess].
    + split; [lia|by intros [|]].
    + destruct Hcodes as [->|[->|[->|[->| ->]]]]; decide_by_running.
Qed.

(** A body that is a list, as the view meets it. *)
Example list_body_raises :
  test_connection_endpoint (RouteFixtures.answering 200 (Returned JsonOther))
    RouteFixtures.strict_requests (Returned (JList []))
  = Raised (AttributeError "'list' object has no attribute 'get'").
Proof. vm_compute. reflexivity. Qed.

(** A url that is a number: [test_connection] reports the
    [AttributeError], and the endpoint answers 500. *)
Example numeric_url_is_reported :
  test_connection_endpoint (RouteFixtures.answering 200 (Returned JsonOther))
    RouteFixtures.strict_requests
    (Returned (JDict (<["api_url" := JInt 5]> (<["api_key" := JStr "k"]> ∅))))
  = Returned (failure "Unexpected error: 'int' object has no attribute 'startswith'",
              500%Z).
Proof. vm_compute. reflexivity. Qed.

Lemma try_body_reaches_request net url api_key timeout parsed p verify_ssl response :
  urlparse net url = Returned parsed →
  port parsed = Returned p →
  (∀ port, socket_test net (hostname parsed) port = None) →
  get_ssl_verify_setting net = Returned verify_ssl →
  Prowlarr.requests_get net (rstrip_slash url +:+ "/api/v1/system/status") api_key timeout
    verify_ssl = Returned response →
  try_body net url api_key timeout =
    check_response (rstrip_slash url +:+ "/api/v1/system/status") response.
Proof.
  intros Hparse Hport Hsocket Hssl Hget. unfold try_body.
  rewrite Hparse, Hport, Hsocket, Hssl. simpl. by rewrite Hget.
Qed.

(** X9.  When the request reaches Prowlarr and Prowlarr answers 401, 403
    or 404, the endpoint answers with that same status, and a result that
    says ['success': False]. *)
Theorem endpoint_passes_http_status net py data url key timeout parsed p verify_ssl
    response :
  data !! "api_url" = Some (JStr url) → url ≠ "" →
  data !! "api_key" = Some (JStr key) → key ≠ "" →
  default (JInt 30) (data !! "api_timeout") = JInt timeout →
  urlparse net (correct_url url) = Returned parsed →
  port parsed = Returned p →
  (∀ port, socket_test net (hostname parsed) port = None) →
  get_ssl_verify_setting net = Returned verify_ssl →
  Prowlarr.requests_get net (rstrip_slash (correct_url url) +:+ "/api/v1/system/status") key
    timeout verify_ssl = Returned response →
  (Prowlarr.status_code response = 401 ∨ Prowlarr.status_code response = 403 ∨
   Prowlarr.status_code response = 404)%Z →
  ∃ body,
    test_connection_endpoint net py (Returned (JDict data))
      = Returned (body, Prowlarr.status_code response) ∧
    body !! "success" = Some (VBool false).
Proof.
  intros Hurl Hurl' Hkey Hkey' Htimeout Hparse Hport Hsocket Hssl Hget Hcode.
  unfold test_connection_endpoint. simpl. rewrite Hurl, Hkey, Htimeout. simpl.
  destruct (String.eqb_spec url ""); [done|].
  destruct (String.eqb_spec key ""); [done|]. simpl.
  unfold test_connection.
  rewrite (try_body_reaches_request _ _ _ _ _ _ _ _ Hparse Hport Hsocket Hssl Hget).
  unfold check_response.
  destruct Hcode as [->|[->| ->]]; simpl; eexists; (split; [reflexivity|]);
    unfold failure; by rewrite lookup_insert_eq.
Qed.

Lemma endpoint_passes_http_status_witness :
  ∃ body,
    test_connection_endpoint (RouteFixtures.answering 403 (Raised (ValueError "no json")))
      RouteFixtures.strict_requests
      (Returned (RouteFixtures.test_request_for "prowlarr:9696" "k"))
    = Returned (body, 403%Z) ∧
    body !! "success" = Some (VBool false).
Proof.
  apply (endpoint_passes_http_status
           (RouteFixtures.answering 403 (Raised (ValueError "no json")))
           RouteFixtures.strict_requests
           (<["api_url" := JStr "prowlarr:9696"]> (<["api_key" := JStr "k"]> ∅))
           "prowlarr:9696" "k" 30
           {| scheme := "http"; hostname := Some "prowlarr";
              port := Returned (Some 9696%Z) |}
           (Some 9696%Z) true
           {| Prowlarr.status_code := 403; reason := "reason";
              json := Raised (ValueError "no json"); text := "text" |});
    try reflexivity; try discriminate.
  right. left. reflexivity.
Defined.

(** X10.  [get_status] always reports two booleans, ['configured'] and
    ['connected'], and it reports ['connected': True] only when the
    settings could be read, the stripped url and key are not empty,
    [enabled] is truthy (or absent) and [test_connection], run on them
    with a timeout of 5, succeeded. *)
Theorem status_connected_only_when_configured net w :
  ∃ configured connected : bool,
    get_status net w !! "configured" = Some (VBool configured) ∧
    get_status net w !! "connected" = Some (VBool connected) ∧
    (connected = true →
       configured = true ∧
       ∃ settings result,
         load_settings w = Returned settings ∧
         Radarr.strip (default "" (api_url settings)) ≠ "" ∧
         Radarr.strip (default "" (api_key settings)) ≠ "" ∧
         truthy (default (VBool true) (enabled settings)) = true ∧
         test_connection net (Radarr.strip (default "" (api_url settings)))
           (Radarr.strip (default "" (api_key settings))) 5 = Returned result ∧
         result !! "success" = Some (VBool true)).
Proof.
  unfold get_status, status_body.
  destruct (load_settings w) as [settings|e]; simpl.
  2:{ exists false, false. by repeat split. }
  destruct (String.eqb_spec (Radarr.strip (default "" (api_url settings))) "") as [|Hurl];
    [|destruct (String.eqb_spec (Radarr.strip (default "" (api_key settings))) "")
        as [|Hkey]]; simpl.
  1,2: exists false, false; by repeat split.
  destruct (truthy (default (VBool true) (enabled settings))) eqn:Henabled; simpl.
  2:{ exists true, false. by repeat split. }
  destruct (test_connection_reports net (Radarr.strip (default "" (api_url settings)))
              (Radarr.strip (default "" (api_key settings))) 5)
    as (result & Htest & success & Hsuccess & _).
  rewrite Htest. simpl. unfold subscript. rewrite Hsuccess. simpl.
  exists true, success. split; [done|]. split; [done|].
  intros ->. split; [done|]. by exists settings, result.
Qed.

Lemma json_error_spec msg :
  ∃ d, json_error msg = JDict d ∧
       d !! "success" = Some (JBool false) ∧ d !! "error" = Some (JStr msg).
Proof.
  eexists. split; [reflexivity|]. split.
  - by rewrite lookup_insert_eq.
  - by rewrite lookup_insert_ne, lookup_insert_eq.
Qed.

(** The answers of the inner [try]: 200 with a success dict, or 500 with
    an error dict. *)
Lemma indexers_request_spec w url key response code :
  indexers_request w url key = Returned (response, code) →
  (code = 200%Z ∧
   ∃ indexers_response indexers items lists,
     requests_get w (rstrip_slash url +:+ "/api/v1/indexer") key 5
       = Returned indexers_response ∧
     json_body indexers_response = Returned indexers ∧
     Py.iter indexers = Returned items ∧
     file_indexers items
       {| active_indexers := []; throttled_indexers := []; failed_indexers := [] |}
       = Returned lists ∧
     response =
       JDict (<["success" := JBool true]>
              (<["indexer_details" :=
                   JDict (<["active" := JList (active_indexers lists)]>
                          (<["throttled" := JList (throttled_indexers lists)]>
                           (<["failed" := JList (failed_indexers lists)]> ∅)))]> ∅))) ∨
  (code = 500%Z ∧ ∃ msg, response = json_error msg).
Proof.
  unfold indexers_request. intros Hreq.
  destruct (requests_get w _ key 5) as [indexers_response|] eqn:Hget; [|done].
  simpl in Hreq.
  destruct (status_code indexers_response =? 200)%Z; simpl in Hreq.
  - destruct (json_body indexers_response) as [indexers|] eqn:Hjson; [|done].
    simpl in Hreq.
    destruct (Py.iter indexers) as [items|] eqn:Hiter; [|done]. simpl in Hreq.
    destruct (file_indexers items _) as [lists|] eqn:Hfile; [|done]. simpl in Hreq.
    injection Hreq as <- <-. left. split; [done|].
    by exists indexers_response, indexers, items, lists.
  - injection Hreq as <- <-. right. eauto.
Qed.

(** X11.  [get_prowlarr_indexers] always answers with a JSON object that
    holds a boolean ['success']; that boolean is true exactly when the
    status is 200; when it is false the object holds an ['error'] string
    and the status is 400, 500, 503 or 504. *)
Theorem indexers_answer_contract w :
  ∃ d (success : bool),
    fst (get_prowlarr_indexers w) = JDict d ∧
    d !! "success" = Some (JBool success) ∧
    (success = true ↔ snd (get_prowlarr_indexers w) = 200%Z) ∧
    (success = false →
       (∃ msg, d !! "error" = Some (JStr msg)) ∧
       (snd (get_prowlarr_indexers w) = 400 ∨ snd (get_prowlarr_indexers w) = 500 ∨
        snd (get_prowlarr_indexers w) = 503 ∨ snd (get_prowlarr_indexers w) = 504)%Z).
Proof.
  assert (∀ msg code, code ≠ 200%Z →
            (code = 400 ∨ code = 500 ∨ code = 503 ∨ code = 504)%Z →
            ∃ d (success : bool),
              fst (json_error msg, code) = JDict d ∧
              d !! "success" = Some (JBool success) ∧
              (success = true ↔ snd (json_error msg, code) = 200%Z) ∧
              (success = false →
                 (∃ msg', d !! "error" = Some (JStr msg')) ∧
                 (snd (json_error msg, code) = 400 ∨ snd (json_error msg, code) = 500 ∨
                  snd (json_error msg, code) = 503 ∨ snd (json_error msg, code) = 504)%Z))
    as Herror.
  { intros msg code Hcode Hcodes.
    destruct (json_error_spec msg) as (d & Hd & Hs & He).
    exists d, false. simpl. repeat split; eauto; done. }
  unfold get_prowlarr_indexers, indexers_body.
  destruct (load_settings w) as [settings|e]; simpl; [|apply Herror; auto; lia].
  destruct (_ || _ || _); [apply Herror; auto; lia|].
  destruct (indexers_request w _ _) as [[response code]|e] eqn:Hreq.
  - apply indexers_request_spec in Hreq
      as [[-> (? & ? & ? & lists & _ & _ & _ & _ & ->)]|[-> [msg ->]]].
    + eexists _, true. simpl. split; [reflexivity|].
      split; [by rewrite lookup_insert_eq|]. by repeat split.
    + apply Herror; auto; lia.
  - destruct (is_timeout e); [apply Herror; auto; lia|].
    destruct (is_connection_error e); apply Herror; auto; lia.
Qed.

Lemma file_indexer_spec indexer acc acc' :
  file_indexer indexer acc = Returned acc' →
  ∃ info,
    indexer_info indexer = Returned info ∧
    ((active_indexers acc' = active_indexers acc ++ [info] ∧
      failed_indexers acc' = failed_indexers acc) ∨
     (active_indexers acc' = active_indexers acc ∧
      failed_indexers acc' = failed_indexers acc ++ [info])) ∧
    (throttled_indexers acc' = throttled_indexers acc ++ [info] ∨
     throttled_indexers acc' = throttled_indexers acc).
Proof.
  unfold file_indexer. intros Hfile.
  destruct (indexer_info indexer) as [info|]; [|done]. simpl in Hfile.
  destruct (Py.get indexer "enable" (JBool false)) as [enable|]; [|done].
  simpl in Hfile.
  destruct (Py.get indexer "capabilities" (JDict ∅)) as [capabilities|]; [|done].
  simpl in Hfile.
  destruct (Py.get capabilities "limitsexceeded" (JBool false)) as [limits|]; [|done].
  simpl in Hfile. injection Hfile as <-. exists info. simpl.
  split; [done|]. split.
  - destruct (Py.truth enable); auto.
  - destruct (Py.truth limits); auto.
Qed.

Lemma file_indexers_spec indexers : ∀ acc lists,
  file_indexers indexers acc = Returned lists →
  ∃ infos active throttled failed,
    Forall2 (λ indexer info, indexer_info indexer = Returned info) indexers infos ∧
    active_indexers lists = active_indexers acc ++ active ∧
    throttled_indexers lists = throttled_indexers acc ++ throttled ∧
    failed_indexers lists = failed_indexers acc ++ failed ∧
    active ++ failed ≡ₚ infos ∧
    active `sublist_of` infos ∧
    failed `sublist_of` infos ∧
    throttled `sublist_of` infos.
Proof.
  induction indexers as [|indexer indexers IH]; intros acc lists Hfile; simpl in Hfile.
  { injection Hfile as <-. exists [], [], [], []. rewrite !app_nil_r.
    by repeat split. }
  destruct (file_indexer indexer acc) as [acc'|] eqn:Hone; [|done]. simpl in Hfile.
  apply file_indexer_spec in Hone as (info & Hinfo & Hplace & Hthrottled).
  apply IH in Hfile
    as (infos & active & throttled & failed & Hall & Ha & Ht & Hf & Hperm & Hsa & Hsf & Hst).
  destruct Hplace as [[Ha' Hf']|[Ha' Hf']], Hthrottled as [Ht'|Ht'];
    rewrite Ha' in Ha; rewrite Hf' in Hf; rewrite Ht' in Ht.
  - exists (info :: infos), (info :: active), (info :: throttled), failed.
    split; [by constructor|].
    split; [by rewrite Ha, <-app_assoc|]. split; [by rewrite Ht, <-app_assoc|].
    split; [done|]. split; [simpl; by f_equiv|].
    split; [by apply sublist_skip|]. split; [by apply sublist_cons|].
    by apply sublist_skip.
  - exists (info :: infos), (info :: active), throttled, failed.
    split; [by constructor|].
    split; [by rewrite Ha, <-app_assoc|]. split; [done|].
    split; [done|]. split; [simpl; by f_equiv|].
    split; [by apply sublist_skip|]. split; [by apply sublist_cons|].
    by apply sublist_cons.
  - exists (info :: infos), active, (info :: throttled), (info :: failed).
    split; [by constructor|].
    split; [done|]. split; [by rewrite Ht, <-app_assoc|].
    split; [by rewrite Hf, <-app_assoc|].
    split; [by rewrite <-Permutation_middle; f_equiv|].
    split; [by apply sublist_cons|]. split; [by apply sublist_skip|].
    by apply sublist_skip.
  - exists (info :: infos), active, throttled, (info :: failed).
    split; [by constructor|].
    split; [done|]. split; [done|].
    split; [by rewrite Hf, <-app_assoc|].
    split; [by rewrite <-Permutation_middle; f_equiv|].
    split; [by apply sublist_cons|]. split; [by apply sublist_skip|].
    by apply sublist_cons.
Qed.

(** X12.  In a 200 answer of [get_prowlarr_indexers], every element of the
    list Prowlarr returned is reported exactly once, under ['active'] or
    under ['failed'], in Prowlarr's order; ['throttled'] holds some of the
    same entries, also in order. *)
Theorem indexers_listed_once w :
  snd (get_prowlarr_indexers w) = 200%Z →
  ∃ items infos active throttled failed,
    (∃ settings indexers_response indexers,
       load_settings w = Returned settings ∧
       requests_get w
         (rstrip_slash (correct_url (Radarr.strip (default "" (api_url settings))))
            +:+ "/api/v1/indexer")
         (Radarr.strip (default "" (api_key settings))) 5 = Returned indexers_response ∧
       json_body indexers_response = Returned indexers ∧
       Py.iter indexers = Returned items) ∧
    Forall2 (λ indexer info, indexer_info indexer = Returned info) items infos ∧
    fst (get_prowlarr_indexers w) =
      JDict (<["success" := JBool true]>
             (<["indexer_details" :=
                  JDict (<["active" := JList active]>
                         (<["throttled" := JList throttled]>
                          (<["failed" := JList failed]> ∅)))]> ∅)) ∧
    active ++ failed ≡ₚ infos ∧
    active `sublist_of` infos ∧
    failed `sublist_of` infos ∧
    throttled `sublist_of` infos.
Proof.
  unfold get_prowlarr_indexers, indexers_body.
  destruct (load_settings w) as [settings|e]; simpl; [|done].
  destruct (_ || _ || _); [done|].
  destruct (indexers_request w _ _) as [[response code]|e] eqn:Hreq.
  2:{ by destruct (is_timeout e), (is_connection_error e). }
  apply indexers_request_spec in Hreq
    as [[-> (indexers_response & indexers & items & lists & Hget & Hjson & Hiter
             & Hfile & ->)]|[-> _]]; [|done].
  intros _. simpl.
  apply file_indexers_spec in Hfile
    as (infos & active & throttled & failed & Hall & Ha & Ht & Hf & Hperm & Hsa & Hsf & Hst).
  simpl in Ha, Ht, Hf. rewrite Ha, Ht, Hf.
  exists items, infos, active, throttled, failed.
  split; [by exists settings, indexers_response, indexers|]. by repeat split.
Qed.

Lemma indexers_listed_once_witness :
  ∃ items infos active throttled failed,
    (∃ settings indexers_response indexers,
       load_settings (RouteFixtures.indexer_world 200 (Returned RouteFixtures.two_indexers))
         = Returned settings ∧
       requests_get (RouteFixtures.indexer_world 200 (Returned RouteFixtures.two_indexers))
         (rstrip_slash (correct_url (Radarr.strip (default "" (api_url settings))))
            +:+ "/api/v1/indexer")
         (Radarr.strip (default "" (api_key settings))) 5 = Returned indexers_response ∧
       json_body indexers_response = Returned indexers ∧
       Py.iter indexers = Returned items) ∧
    Forall2 (λ indexer info, indexer_info indexer = Returned info) items infos ∧
    fst (get_prowlarr_indexers
           (RouteFixtures.indexer_world 200 (Returned RouteFixtures.two_indexers))) =
      JDict (<["success" := JBool true]>
             (<["indexer_details" :=
                  JDict (<["active" := JList active]>
                         (<["throttled" := JList throttled]>
                          (<["failed" := JList failed]> ∅)))]> ∅)) ∧
    active ++ failed ≡ₚ infos ∧
    active `sublist_of` infos ∧
    failed `sublist_of` infos ∧
    throttled `sublist_of` infos.
Proof.
  apply (indexers_listed_once
           (RouteFixtures.indexer_world 200 (Returned RouteFixtures.two_indexers))).
  vm_compute. reflexivity.
Defined.

End prowlarr_routes.

(** ** The base url *)
Section base_url.
Import Prowlarr WebRoutes.

Lemma endswith_slash_rstrip_slash s : endswith_slash (rstrip_slash s) = false.
Proof.
  induction s as [|a s IH]; [done|]. simpl.
  destruct (rstrip_slash s) as [|b r] eqn:Hr.
  - destruct (Ascii.eqb a _) eqn:Ha; [done|]. simpl. by rewrite Ha.
  - done.
Qed.

Lemma rstrip_slash_id s : endswith_slash s = false → rstrip_slash s = s.
Proof.
  induction s as [|a s IH]; [done|]. simpl. destruct s as [|b t].
  - simpl. by intros ->.
  - intros Hend. by rewrite IH.
Qed.

Lemma prefix_slash s :
  String.prefix "/" s = true ↔ ∃ t, s = String (Ascii.ascii_of_nat 47) t.
Proof.
  destruct s as [|a t]; [split; [done|by intros [? ?]]|].
  change (String.prefix "/" (String a t))
    with (if Ascii.ascii_dec (Ascii.ascii_of_nat 47) a
          then String.prefix "" t else false).
  destruct (Ascii.ascii_dec _ a) as [Heq|Hne].
  - subst a. split; [by eexists|]. intros _. by destruct t.
  - split; [done|]. intros [t' [= Heq _]]. by subst a.
Qed.

Lemma rstrip_slash_prefix s :
  String.prefix "/" s = true →
  rstrip_slash s = "" ∨ String.prefix "/" (rstrip_slash s) = true.
Proof.
  intros [t ->]%prefix_slash. cbn [rstrip_slash].
  destruct (rstrip_slash t) as [|b r].
  - destruct (Ascii.eqb _ _); [by left|]. right. apply prefix_slash. by eexists.
  - right. apply prefix_slash. by eexists.
Qed.

(** A base url in normal form: empty, or a path that starts with a slash
    and has no trailing slash unless it is the slash alone. *)
Lemma normalise_base_url_spec base_url result :
  normalise_base_url base_url = Returned result →
  match result with
  | JStr s =>
      s = "" ∨
      (String.prefix "/" s = true ∧ (s = "/" ∨ endswith_slash s = false))
  | other => Py.truth other = false
  end.
Proof.
  unfold normalise_base_url.
  destruct (Py.truth base_url) eqn:Htruth; simpl.
  2:{ intros [= <-]. destruct base_url; try done. simpl in Htruth.
      left. by destruct (String.eqb_spec s ""). }
  destruct base_url as [| | |s| |]; try done.
  set (s' := if String.prefix "/" s then s else "/" +:+ s).
  assert (String.prefix "/" s' = true) as Hprefix.
  { unfold s'. destruct (String.prefix "/" s) eqn:Hp; [done|].
    apply prefix_slash. by exists s. }
  destruct (String.eqb_spec s' "/") as [->|Hne]; simpl.
  { intros [= <-]. right. auto. }
  destruct (endswith_slash s') eqn:Hend; intros [= <-].
  - destruct (rstrip_slash_prefix s' Hprefix) as [->|Hp]; [by left|].
    right. split; [done|]. right. apply endswith_slash_rstrip_slash.
  - right. auto.
Qed.

(** The normal form, as the later proofs use it. *)
Lemma get_base_url_spec get_setting :
  match get_base_url get_setting with
  | JStr s =>
      s = "" ∨
      (String.prefix "/" s = true ∧ (s = "/" ∨ endswith_slash s = false))
  | other => Py.truth other = false
  end.
Proof.
  unfold get_base_url.
  destruct get_setting as [base_url|e]; simpl; [|by left].
  destruct (normalise_base_url base_url) as [result|e] eqn:Hnorm; [|by left].
  pose proof (normalise_base_url_spec base_url result Hnorm) as Hspec.
  by destruct result.
Qed.

(** X13.  [get_base_url] never fails, and what it returns is either a
    falsy value (the empty string, or a falsy setting as it was stored),
    or a string that starts with a slash and does not end with one unless
    it is the slash alone. *)
Theorem base_url_normal_form get_setting :
  match get_base_url get_setting with
  | JStr s =>
      s = "" ∨
      (String.prefix "/" s = true ∧ (s = "/" ∨ endswith_slash s = false))
  | other => Py.truth other = false
  end.
Proof.
  unfold get_base_url.
  destruct get_setting as [base_url|e]; simpl; [|by left].
  destruct (normalise_base_url base_url) as [result|e] eqn:Hnorm; [|by left].
  pose proof (normalise_base_url_spec base_url result Hnorm) as Hspec.
  by destruct result.
Qed.

(** X14.  Normalising is idempotent: storing what [get_base_url] returned
    and reading it back through [get_base_url] gives the same value. *)
Theorem base_url_idempotent get_setting :
  get_base_url (Returned (get_base_url get_setting)) = get_base_url get_setting.
Proof.
  pose proof (get_base_url_spec get_setting) as Hnf.
  destruct (get_base_url get_setting) as [|b|z|s|l|d] eqn:Hget;
    unfold get_base_url at 1; simpl; unfold normalise_base_url; simpl in *.
  1-3,5-6: first [done | by rewrite Hnf | by subst | by destruct l].
  destruct Hnf as [->|[Hprefix Hend]]; [done|].
  destruct (String.eqb_spec s ""); [by subst|]. simpl. rewrite Hprefix.
  destruct Hend as [->|Hend]; [done|]. rewrite Hend.
  by rewrite andb_false_r.
Qed.

(** X15.  After [configure_base_url], Flask's [APPLICATION_ROOT] is set:
    to [None] when there is no base url, and otherwise to a path that
    starts with a slash and has no trailing slash (unless it is the slash
    alone); the other entries of the configuration are untouched. *)
Theorem application_root_after_configure get_setting st :
  (config (configure_base_url get_setting st) !! "APPLICATION_ROOT" = Some JNull ∨
   ∃ s, config (configure_base_url get_setting st) !! "APPLICATION_ROOT"
          = Some (JStr s) ∧
        s ≠ "" ∧ String.prefix "/" s = true ∧
        (s = "/" ∨ endswith_slash s = false)) ∧
  ∀ key, key ≠ "APPLICATION_ROOT" →
    config (configure_base_url get_setting st) !! key = config st !! key.
Proof.
  unfold configure_base_url. simpl. split.
  - rewrite lookup_insert_eq.
    pose proof (get_base_url_spec get_setting) as Hnf.
    destruct (Py.truth (get_base_url get_setting)) eqn:Htruth; [|by left].
    destruct (get_base_url get_setting) as [| | |s| |]; try congruence.
    right. exists s. split; [done|]. simpl in Htruth.
    destruct (String.eqb_spec s ""); [done|].
    destruct Hnf as [?|[? ?]]; done.
  - intros key Hkey. by rewrite lookup_insert_ne.
Qed.

End base_url.

(** ** The status route *)
Section app_status.
Import WebRoutes.

Lemma check_instances_spec w app_name api_timeout instances : ∀ n connected_count,
  (connected_count ≤ fst (check_instances w app_name api_timeout instances n connected_count)
   ≤ connected_count + Z.of_nat (length instances))%Z ∧
  length (snd (check_instances w app_name api_timeout instances n connected_count))
    = length instances ∧
  Forall (λ c, check_timeout c = Z.min api_timeout 5)
    (snd (check_instances w app_name api_timeout instances n connected_count)).
Proof.
  induction instances as [|instance rest IH]; intros n c; simpl.
  { split; [lia|]. by split. }
  set (c' := if _ : bool then _ else _).
  specialize (IH (S n) c').
  destruct (check_instances w app_name api_timeout rest (S n) c') as [total checks].
  simpl in *. destruct IH as (Hcount & Hlen & Hall).
  assert (c ≤ c' ≤ c + 1)%Z by (unfold c'; case_match; lia).
  split; [lia|]. split; [by rewrite Hlen|]. by constructor.
Qed.

(** X16.  For the six multi-instance apps, [api_app_status] always reports
    two integers with [0 <= connected_count <= total_configured]; the
    status is 200, or it is 500 with both counts 0 and the error
    ["Import Error"]. *)
Theorem connected_count_within_total w app_name :
  app_name ∈ known_app_types w →
  app_name ∈ multi_instance_apps →
  ∃ total_configured connected_count,
    fst (fst (api_app_status w app_name)) !! "total_configured"
      = Some (VInt total_configured) ∧
    fst (fst (api_app_status w app_name)) !! "connected_count"
      = Some (VInt connected_count) ∧
    (0 ≤ connected_count ≤ total_configured)%Z ∧
    (snd (fst (api_app_status w app_name)) = 200%Z ∨
     snd (fst (api_app_status w app_name)) = 500%Z ∧
     total_configured = 0%Z ∧ connected_count = 0%Z ∧
     fst (fst (api_app_status w app_name)) !! "error" = Some (VStr "Import Error")).
Proof.
  intros Hknown Hmulti. unfold api_app_status.
  rewrite (bool_decide_eq_true_2 _ Hknown), (bool_decide_eq_true_2 _ Hmulti). simpl.
  destruct (multi_instance_body w app_name) as [[[total connected]|e] checks] eqn:Hbody.
  - exists total, connected. simpl.
    split; [by rewrite lookup_insert_eq|].
    split; [by rewrite lookup_insert_ne, lookup_insert_eq|].
    split; [|by left].
    unfold multi_instance_body in Hbody.
    destruct (import_app w app_name ≫= _); [|done].
    destruct (has_get_configured_instances w app_name); [|by simplify_eq].
    destruct (get_configured_instances w app_name) as [instances|]; [|done].
    destruct (get_api_timeout w app_name) as [api_timeout|]; [|done].
    destruct (_ && _); [|simplify_eq; lia].
    pose proof (check_instances_spec w app_name api_timeout instances 0 0%Z)
      as (Hcount & _).
    destruct (check_instances w app_name api_timeout instances 0 0) as [c cs].
    simplify_eq. simpl in Hcount. lia.
  - exists 0%Z, 0%Z. simpl.
    split; [by rewrite lookup_insert_eq|].
    split; [by rewrite lookup_insert_ne, lookup_insert_eq|].
    split; [lia|]. right. repeat split; try done.
    all: by rewrite !lookup_insert_ne, lookup_insert_eq.
Qed.

Lemma connected_count_within_total_witness :
  ∃ total_configured connected_count,
    fst (fst (api_app_status StatusFixtures.status_world "radarr")) !! "total_configured"
      = Some (VInt total_configured) ∧
    fst (fst (api_app_status StatusFixtures.status_world "radarr")) !! "connected_count"
      = Some (VInt connected_count) ∧
    (0 ≤ connected_count ≤ total_configured)%Z ∧
    (snd (fst (api_app_status StatusFixtures.status_world "radarr")) = 200%Z ∨
     snd (fst (api_app_status StatusFixtures.status_world "radarr")) = 500%Z ∧
     total_configured = 0%Z ∧ connected_count = 0%Z ∧
     fst (fst (api_app_status StatusFixtures.status_world "radarr")) !! "error"
       = Some (VStr "Import Error")).
Proof.
  apply (connected_count_within_total StatusFixtures.status_world "radarr");
    decide_by_running.
Defined.

Example status_of_two_instances :
  api_app_status StatusFixtures.status_world "radarr" =
    (<["total_configured" := VInt 2]> (<["connected_count" := VInt 1]> ∅), 200%Z,
     [{| check_url := VStr "http://a"; check_key := VStr "ka"; check_timeout := 5 |};
      {| check_url := VStr "http://b"; check_key := VStr "kb"; check_timeout := 5 |}]).
Proof. vm_compute. reflexivity. Qed.

(** X17.  Every connection check [api_app_status] makes gets a timeout of
    at most 5 seconds (the configured [api_timeout] when that is smaller);
    for an app name that is not a known app type it answers 400 and makes
    no check at all. *)
Theorem every_check_has_a_short_timeout w app_name :
  Forall (λ c, (check_timeout c ≤ 5)%Z) (snd (api_app_status w app_name)) ∧
  (app_name ∉ known_app_types w →
     snd (fst (api_app_status w app_name)) = 400%Z ∧
     snd (api_app_status w app_name) = []).
Proof.
  unfold api_app_status.
  destruct (bool_decide_reflect (app_name ∈ known_app_types w)) as [Hknown|Hunknown];
    simpl; [|by split].
  split; [|done].
  destruct (bool_decide (app_name ∈ multi_instance_apps)).
  - assert (Forall (λ c, (check_timeout c ≤ 5)%Z) (snd (multi_instance_body w app_name)))
      as Hchecks.
    { unfold multi_instance_body.
      destruct (import_app w app_name ≫= _); [|done].
      destruct (has_get_configured_instances w app_name); [|done].
      destruct (get_configured_instances w app_name) as [instances|]; [|done].
      destruct (get_api_timeout w app_name) as [api_timeout|]; [|done].
      destruct (_ && _); [|done].
      pose proof (check_instances_spec w app_name api_timeout instances 0 0%Z)
        as (_ & _ & Hall).
      destruct (check_instances w app_name api_timeout instances 0 0) as [c cs].
      simpl in *. eapply Forall_impl; [exact Hall|]. intros ck ->. lia. }
    by destruct (multi_instance_body w app_name) as [[[]|] checks].
  - assert (Forall (λ c, (check_timeout c ≤ 5)%Z) (snd (single_instance_body w app_name)))
      as Hchecks.
    { unfold single_instance_body.
      destruct (get_api_url w app_name); [|done].
      destruct (get_api_key w app_name); [|done].
      destruct (get_api_timeout w app_name) as [api_timeout|]; [|done].
      destruct (_ && _); [|done].
      destruct (import_api w app_name); [|done].
      destruct (has_check_connection w app_name); [|done].
      simpl. constructor; [simpl; lia|done]. }
    by destruct (single_instance_body w app_name) as [[[]|] checks].
Qed.

(** X18.  For a known app outside the six multi-instance ones,
    [api_app_status] answers 200 with a boolean ['configured'] and a
    ['connected'] value, and ['connected'] is truthy only when
    ['configured'] is true. *)
Theorem single_instance_connected_only_if_configured w app_name :
  app_name ∈ known_app_types w →
  app_name ∉ multi_instance_apps →
  ∃ (configured : bool) connected,
    fst (fst (api_app_status w app_name)) !! "configured" = Some (VBool configured) ∧
    fst (fst (api_app_status w app_name)) !! "connected" = Some connected ∧
    snd (fst (api_app_status w app_name)) = 200%Z ∧
    (truthy connected = true → configured = true).
Proof.
  intros Hknown Hsingle. unfold api_app_status.
  rewrite (bool_decide_eq_true_2 _ Hknown), (bool_decide_eq_false_2 _ Hsingle). simpl.
  destruct (single_instance_body w app_name) as [[[configured connected]|e] checks]
    eqn:Hbody; simpl.
  2:{ exists false, (VBool false).
      split; [by rewrite lookup_insert_eq|].
      split; [by rewrite lookup_insert_ne, lookup_insert_eq|]. by split. }
  exists configured, connected.
  split; [by rewrite lookup_insert_eq|].
  split; [by rewrite lookup_insert_ne, lookup_insert_eq|]. split; [done|].
  unfold single_instance_body in Hbody.
  destruct (get_api_url w app_name); [|done].
  destruct (get_api_key w app_name); [|done].
  destruct (get_api_timeout w app_name) as [api_timeout|]; [|done].
  destruct (_ && _) eqn:Hconf; [|by simplify_eq].
  destruct (import_api w app_name); [|by simplify_eq].
  destruct (has_check_connection w app_name); by simplify_eq.
Qed.

Lemma single_instance_connected_only_if_configured_witness :
  ∃ (configured : bool) connected,
    fst (fst (api_app_status StatusFixtures.status_world "swaparr")) !! "configured"
      = Some (VBool configured) ∧
    fst (fst (api_app_status StatusFixtures.status_world "swaparr")) !! "connected"
      = Some connected ∧
    snd (fst (api_app_status StatusFixtures.status_world "swaparr")) = 200%Z ∧
    (truthy connected = true → configured = true).
Proof.
  apply (single_instance_connected_only_if_configured
           StatusFixtures.status_world "swaparr");
    decide_by_running.
Defined.

End app_status.

(** ** The cycle-reset route, once more *)
Section reset_extras.
Import WebServer.

(** X19.  [reset_app_cycle] answers 200 with ['success': True] exactly
    when the app is known and configured (for swaparr: enabled), the
    database could be opened and [create_reset_request] reported success;
    every other answer is a 400 or a 500 with ['success': False]. *)
Theorem reset_succeeds_iff_request_created w app_name :
  (status (fst (reset_app_cycle w app_name)) = 200%Z ↔
     app_name ∈ known_apps ∧
     (app_name = "swaparr" → swaparr_disabled w = false) ∧
     (app_name ≠ "swaparr" → app_name ∈ get_configured_apps w) ∧
     get_database w = Some () ∧
     create_reset_request w app_name = Returned true) ∧
  (status (fst (reset_app_cycle w app_name)) = 200%Z ∧
   body (fst (reset_app_cycle w app_name)) !! "success" = Some (VBool true) ∨
   (status (fst (reset_app_cycle w app_name)) = 400%Z ∨
    status (fst (reset_app_cycle w app_name)) = 500%Z) ∧
   body (fst (reset_app_cycle w app_name)) !! "success" = Some (VBool false)).
Proof.
  assert (∀ msg code, body (error_response msg code) !! "success" = Some (VBool false))
    as Herr by (intros; apply error_response_spec).
  assert ((status (fst (trigger_reset w app_name)) = 200%Z ↔
             get_database w = Some () ∧ create_reset_request w app_name = Returned true) ∧
          (status (fst (trigger_reset w app_name)) = 200%Z ∧
           body (fst (trigger_reset w app_name)) !! "success" = Some (VBool true) ∨
           (status (fst (trigger_reset w app_name)) = 400%Z ∨
            status (fst (trigger_reset w app_name)) = 500%Z) ∧
           body (fst (trigger_reset w app_name)) !! "success" = Some (VBool false)))
    as [Htrigger Hshape].
  { unfold trigger_reset.
    destruct (get_database w) as [[]|];
      [destruct (create_reset_request w app_name) as [[]|[]]|]; simpl.
    - split; [done|]. left. split; [done|]. by rewrite lookup_insert_eq.
    - split; [split; [lia|by intros [_ ?]]|]. right. split; [by right|]. apply (Herr _ 0%Z).
    - split; [split; [lia|by intros [_ ?]]|]. right. split; [by right|]. apply (Herr _ 0%Z).
    - split; [split; [lia|by intros [? _]]|]. right. split; [by right|]. apply (Herr _ 0%Z). }
  unfold reset_app_cycle.
  destruct (bool_decide_reflect (app_name ∈ known_apps)) as [Hknown|Hunknown]; simpl.
  2:{ split; [split; [lia|by intros [? _]]|]. right. split; [by left|]. apply (Herr _ 0%Z). }
  destruct (String.eqb_spec app_name "swaparr") as [->|Hother].
  - destruct (swaparr_disabled w) eqn:Hdis; simpl.
    + split; [|right; split; [by left|apply (Herr _ 0%Z)]].
      split; [lia|]. intros (_ & Hen & _). by specialize (Hen eq_refl).
    + split; [|done]. rewrite Htrigger. split.
      * intros [? ?]. by repeat split.
      * by intros (_ & _ & _ & ? & ?).
  - destruct (bool_decide_reflect (app_name ∈ get_configured_apps w)) as [Hconf|Hnot]; simpl.
    + split; [|done]. rewrite Htrigger. split.
      * intros [? ?]. by repeat split.
      * by intros (_ & _ & _ & ? & ?).
    + split; [|right; split; [by left|apply (Herr _ 0%Z)]].
      split; [lia|]. intros (_ & _ & Hc & _). by specialize (Hc Hother).
Qed.

End reset_extras.

(** ** The connection test, once more *)
Section connection_extras.
Import Prowlarr.

Lemma failure_not_success error_msg : failure error_msg !! "success" ≠ Some (VBool true).
Proof. unfold failure. by rewrite lookup_insert_eq. Qed.

Lemma handle_not_success net url timeout e result :
  handle net url timeout e = Returned result →
  result !! "success" ≠ Some (VBool true).
Proof.
  unfold handle. intros Hres.
  repeat case_match; simplify_eq; apply failure_not_success.
Qed.

(** X20.  [test_connection] reports ['success': True] only when the HTTP
    request to [<url>/api/v1/system/status] (the url with its scheme added
    and trailing slashes removed) returned a response with a status below
    400 whose body is a JSON object; the ['version'] it reports is that
    object's ['version'], or ['unknown']. *)
Theorem success_means_prowlarr_answered net url api_key timeout result :
  test_connection net url api_key timeout = Returned result →
  result !! "success" = Some (VBool true) →
  ∃ verify_ssl response response_data,
    get_ssl_verify_setting net = Returned verify_ssl ∧
    requests_get net (rstrip_slash (correct_url url) +:+ "/api/v1/system/status")
      api_key timeout verify_ssl = Returned response ∧
    (status_code response < 400)%Z ∧
    json response = Returned (JsonObject response_data) ∧
    result !! "version" = Some (dict_get response_data "version" (VStr "unknown")).
Proof.
  unfold test_connection. intros Htest Hsuccess.
  destruct (try_body net (correct_url url) api_key timeout) as [r|e] eqn:Hbody.
  2:{ by apply handle_not_success in Htest. }
  injection Htest as ->. unfold try_body in Hbody.
  destruct (urlparse net (correct_url url)) as [parsed_url|]; [|done].
  destruct (port parsed_url) as [p|]; [|done].
  destruct (socket_test net _ _) as [d|] eqn:Hsock.
  { injection Hbody as ->. unfold socket_test in Hsock.
    repeat case_match; simplify_eq; by apply failure_not_success in Hsuccess. }
  destruct (get_ssl_verify_setting net) as [verify_ssl|]; [simpl in Hbody|done].
  destruct (requests_get net _ _ _ _) as [response|] eqn:Hget; [simpl in Hbody|done].
  exists verify_ssl, response. unfold check_response in Hbody.
  destruct (Z.eqb_spec (status_code response) 401);
    [injection Hbody as <-; by apply failure_not_success in Hsuccess|].
  destruct (Z.eqb_spec (status_code response) 403);
    [injection Hbody as <-; by apply failure_not_success in Hsuccess|].
  destruct (Z.eqb_spec (status_code response) 404);
    [injection Hbody as <-; by apply failure_not_success in Hsuccess|].
  destruct (Z.leb_spec 500 (status_code response));
    [injection Hbody as <-; by apply failure_not_success in Hsuccess|].
  unfold raise_for_status in Hbody.
  destruct (Z.leb_spec 400 (status_code response)),
    (Z.ltb_spec (status_code response) 500); simpl in Hbody; try done; try lia.
  all: destruct (Z.leb_spec 500 (status_code response)); try lia; simpl in Hbody.
  all: unfold read_json in Hbody;
    destruct (json response) as [[response_data|]|e]; try done;
    [|destruct (is_value_error e); [|done];
      injection Hbody as <-; by apply failure_not_success in Hsuccess].
  all: injection Hbody as <-; exists response_data;
    repeat split; try done; try lia;
    by rewrite !lookup_insert_ne, lookup_insert_eq.
Qed.

Lemma success_means_prowlarr_answered_witness :
  ∃ verify_ssl response response_data,
    get_ssl_verify_setting
      (RouteFixtures.answering 200 (Returned (JsonObject (<["version" := VStr "1.9"]> ∅))))
      = Returned verify_ssl ∧
    requests_get
      (RouteFixtures.answering 200 (Returned (JsonObject (<["version" := VStr "1.9"]> ∅))))
      (rstrip_slash (correct_url "prowlarr:9696/") +:+ "/api/v1/system/status")
      "k" 30 verify_ssl = Returned response ∧
    (status_code response < 400)%Z ∧
    json response = Returned (JsonObject response_data) ∧
    (<["success" := VBool true]>
       (<["message" := VStr "Successfully connected to Prowlarr API"]>
          (<["version" := VStr "1.9"]> ∅)) : gmap string pyval) !! "version"
      = Some (dict_get response_data "version" (VStr "unknown")).
Proof.
  apply (success_means_prowlarr_answered
           (RouteFixtures.answering 200
              (Returned (JsonObject (<["version" := VStr "1.9"]> ∅))))
           "prowlarr:9696/" "k" 30).
  - vm_compute. reflexivity.
  - vm_compute. reflexivity.
Defined.

(** X21.  The url [test_connection] works with always carries a scheme:
    a url that already starts with [http://] or [https://] is left as it
    is, on any other url [http://] is put in front, and nothing else
    happens to it; correcting a corrected url changes nothing. *)
Theorem corrected_url_has_scheme url :
  (String.prefix "http://" (correct_url url) = true ∨
   String.prefix "https://" (correct_url url) = true) ∧
  (String.prefix "http://" url = true ∨ String.prefix "https://" url = true ↔
   correct_url url = url) ∧
  (String.prefix "http://" url = false ∧ String.prefix "https://" url = false ↔
   correct_url url = "http://" +:+ url) ∧
  correct_url (correct_url url) = correct_url url.
Proof.
  assert (String.prefix "http://" ("http://" +:+ url) = true) as Hadded.
  { vm_compute. by destruct url. }
  assert (String.prefix "http://" (correct_url url) = true ∨
          String.prefix "https://" (correct_url url) = true) as Hscheme.
  { unfold correct_url.
    destruct (String.prefix "http://" url) eqn:Hhttp; simpl; [by left|].
    destruct (String.prefix "https://" url) eqn:Hhttps; [by right|by left]. }
  assert ("http://" +:+ url ≠ url) as Hlonger.
  { intros Heq. apply (f_equal String.length) in Heq.
    unfold String.app in Heq. simpl in Heq. lia. }
  split; [done|]. split; [|split].
  - split.
    + intros Hprefix. unfold correct_url.
      by destruct Hprefix as [-> | ->]; rewrite ?orb_true_r.
    + intros Hsame. rewrite <- Hsame. exact Hscheme.
  - unfold correct_url.
    destruct (String.prefix "http://" url) eqn:Hhttp;
      destruct (String.prefix "https://" url) eqn:Hhttps; simpl;
      split; try done; try (by intros [? ?]); by intros Heq.
  - unfold correct_url at 1. by destruct Hscheme as [-> | ->]; rewrite ?orb_true_r.
Qed.

End connection_extras.

(** ** Saving an app's settings *)
Section settings_routes.
Import Prowlarr SettingsRoutes.

Lemma endswith_backslash_rstrip_backslash s :
  endswith_backslash (rstrip_backslash s) = false.
Proof.
  induction s as [|a s IH]; [done|]. simpl.
  destruct (rstrip_backslash s) as [|b r] eqn:Hr.
  - destruct (Ascii.eqb a _) eqn:Ha; [done|]. simpl. by rewrite Ha.
  - done.
Qed.

Lemma rstrip_backslash_id s : endswith_backslash s = false → rstrip_backslash s = s.
Proof.
  induction s as [|a s IH]; [done|]. simpl. destruct s as [|b t].
  - simpl. by intros ->.
  - intros Hend. by rewrite IH.
Qed.

(** X22.  A cleaned url never ends with a backslash; and unless a
    backslash stood right before the trailing slashes, it does not end
    with a slash either. *)
Theorem clean_url_has_no_trailing_separator url :
  endswith_backslash (clean_url url) = false ∧
  (endswith_backslash (rstrip_slash (Radarr.strip url)) = false →
   WebRoutes.endswith_slash (clean_url url) = false).
Proof.
  unfold clean_url. split; [apply endswith_backslash_rstrip_backslash|].
  intros Hend. rewrite rstrip_backslash_id by done.
  apply endswith_slash_rstrip_slash.
Qed.

(** What cleaning does to one container: nothing, or the [api_url] of a
    dict, a non-empty string, is replaced by its cleaned form. *)
Lemma clean_api_url_spec container container' :
  clean_api_url container = Returned container' →
  container' = container ∨
  ∃ d url,
    container = JDict d ∧ d !! "api_url" = Some (JStr url) ∧ url ≠ "" ∧
    container' = JDict (<["api_url" := JStr (clean_url url)]> d).
Proof.
  unfold clean_api_url. intros Hclean.
  destruct (has_key container "api_url") as [[]|]; simpl in Hclean;
    [|by left; simplify_eq|done].
  destruct (getitem container "api_url") as [url|] eqn:Hget; [simpl in Hclean|done].
  destruct (Py.truth url) eqn:Htruth; [|by left; simplify_eq].
  destruct url as [| | |url| |]; try done.
  destruct container as [| | | | |d]; try done.
  simpl in Hget, Hclean. destruct (d !! "api_url") as [v|] eqn:Hv; [|done].
  injection Hget as ->. injection Hclean as <-.
  right. exists d, url. repeat split; try done.
  intros ->. done.
Qed.

Lemma clean_url_empty : clean_url "" = "".
Proof. vm_compute. reflexivity. Qed.

(** When cleaning a container raises nothing, it gives the container the
    specification asks for. *)
Lemma clean_api_url_refines container container' :
  clean_api_url container = Returned container' →
  container' = SettingsSpec.clean_instance container.
Proof.
  intros Hclean.
  destruct (clean_api_url_spec _ _ Hclean) as [->|(d & url & -> & Hurl & _ & ->)].
  2:{ simpl. unfold SettingsSpec.with_clean_url. by rewrite Hurl. }
  destruct container as [| | | | |d]; try done.
  simpl. unfold SettingsSpec.with_clean_url.
  destruct (d !! "api_url") as [v|] eqn:Hv; [|done].
  destruct v as [| | |url| |]; try done.
  unfold clean_api_url in Hclean. simpl in Hclean. rewrite Hv in Hclean.
  rewrite bool_decide_eq_true_2 in Hclean by eauto. simpl in Hclean.
  destruct (String.eqb_spec url "") as [Hempty|Hne]; simpl in Hclean.
  - subst url. by rewrite clean_url_empty, insert_id.
  - by injection Hclean as ->.
Qed.

Lemma clean_instances_refines instances : ∀ instances',
  clean_instances instances = Returned instances' →
  instances' = SettingsSpec.clean_instance <$> instances.
Proof.
  induction instances as [|instance rest IH]; intros instances' Hclean; simpl in Hclean.
  { by injection Hclean as <-. }
  destruct (clean_api_url instance) as [instance'|] eqn:Hone; [simpl in Hclean|done].
  destruct (clean_instances rest) as [rest'|]; [simpl in Hclean|done].
  injection Hclean as <-. simpl.
  by rewrite (clean_api_url_refines _ _ Hone), (IH rest').
Qed.

Lemma clean_data_refines data data' :
  clean_data data = Returned data' → data' = SettingsSpec.clean_form data.
Proof.
  unfold clean_data, SettingsSpec.clean_form. intros Hclean.
  destruct (data !! "instances") as [instances|] eqn:Hinst.
  1: destruct instances as [| | | |instances|].
  5:{ destruct (clean_instances instances) as [instances'|] eqn:Hci; [|done].
      injection Hclean as <-. by rewrite (clean_instances_refines _ _ Hci). }
  all: destruct (clean_api_url (JDict data)) as [cleaned|] eqn:Htop; [|done];
    simpl in Hclean; apply clean_api_url_refines in Htop; simpl in Htop;
    subst cleaned; by injection Hclean as <-.
Qed.

Lemma with_clean_url_no_backslash d url :
  SettingsSpec.with_clean_url d !! "api_url" = Some (JStr url) →
  endswith_backslash url = false.
Proof.
  unfold SettingsSpec.with_clean_url. intros Hurl.
  destruct (d !! "api_url") as [v|] eqn:Hv; [|by rewrite Hv in Hurl].
  destruct v as [| | |url0| |]; try (rewrite Hv in Hurl; by injection Hurl).
  rewrite lookup_insert_eq in Hurl. injection Hurl as <-.
  apply endswith_backslash_rstrip_backslash.
Qed.

(** X23.  [handle_app_settings] calls [save_settings] at most once, and
    only for a known application type, on a POST that carries JSON; what
    it saves is the submitted object with its urls cleaned and nothing
    else changed: with an instances list, the same object with every
    instance that is an object and has a string under [api_url] carrying
    the cleaned url, all instances kept, in their order; without one, the
    same object with its own [api_url], when a string, cleaned.  Keys
    other than ['instances'] and ['api_url'] are untouched, and no
    [api_url] string of a saved instance ends with a backslash. *)
Theorem settings_saved_clean w app_name method is_json data call :
  call ∈ snd (handle_app_settings w app_name method is_json data) →
  snd (handle_app_settings w app_name method is_json data) = [call] ∧
  app_name ∈ known_app_types w ∧ method = POST ∧ is_json = true ∧
  call = SaveSettings app_name (SettingsSpec.clean_form data) ∧
  (∀ key, key ≠ "instances" → key ≠ "api_url" →
     SettingsSpec.clean_form data !! key = data !! key) ∧
  (∀ instances,
     data !! "instances" = Some (JList instances) →
     ∃ instances',
       SettingsSpec.clean_form data !! "instances" = Some (JList instances') ∧
       SettingsSpec.clean_form data !! "api_url" = data !! "api_url" ∧
       Forall2 (λ instance instance',
                  match instance with
                  | JDict d =>
                      match d !! "api_url" with
                      | Some (JStr url) =>
                          instance' = JDict (<["api_url" := JStr (clean_url url)]> d)
                      | _ => instance' = instance
                      end
                  | _ => instance' = instance
                  end)
         instances instances' ∧
       ∀ d url,
         JDict d ∈ instances' → d !! "api_url" = Some (JStr url) →
         endswith_backslash url = false) ∧
  ((∀ instances, data !! "instances" ≠ Some (JList instances)) →
   SettingsSpec.clean_form data !! "instances" = data !! "instances" ∧
   SettingsSpec.clean_form data !! "api_url"
     = (λ v, match v with JStr url => JStr (clean_url url) | _ => v end)
         <$> data !! "api_url").
Proof.
  unfold handle_app_settings. intros Hcall.
  destruct (bool_decide_reflect (app_name ∈ known_app_types w)) as [Hknown|];
    [|by apply elem_of_nil in Hcall].
  simpl in *. destruct method; [by apply elem_of_nil in Hcall|].
  destruct is_json; [|by apply elem_of_nil in Hcall]. simpl in *.
  destruct (clean_data data) as [data'|] eqn:Hclean; [|by apply elem_of_nil in Hcall].
  simpl in *. apply list_elem_of_singleton in Hcall as ->.
  pose proof (clean_data_refines _ _ Hclean) as ->.
  do 5 (split; [done|]).
  split; [|split].
  - intros key Hk Ha. unfold SettingsSpec.clean_form, SettingsSpec.with_clean_url.
    repeat case_match; by rewrite ?lookup_insert_ne.
  - intros instances Hinst. unfold SettingsSpec.clean_form. rewrite Hinst.
    exists (SettingsSpec.clean_instance <$> instances).
    rewrite lookup_insert_eq, lookup_insert_ne by done.
    do 2 (split; [done|]). split.
    + apply Forall2_fmap_r, Forall_Forall2_diag, Forall_forall.
      intros instance _. destruct instance as [| | | | |d]; try done.
      simpl. unfold SettingsSpec.with_clean_url. by repeat case_match.
    + intros d url Hin Hurl.
      apply list_elem_of_fmap in Hin as (instance & Heq & Hin).
      destruct instance as [| | | | |d0]; try done. simpl in Heq.
      injection Heq as ->.
      by apply (with_clean_url_no_backslash d0 url).
  - intros Hnone. unfold SettingsSpec.clean_form.
    assert (match data !! "instances" with
            | Some (JList instances) =>
                <["instances" := JList (SettingsSpec.clean_instance <$> instances)]> data
            | _ => SettingsSpec.with_clean_url data
            end = SettingsSpec.with_clean_url data) as ->.
    { destruct (data !! "instances") as [[| | | |instances|]|] eqn:Hinst; try done.
      by destruct (Hnone instances). }
    unfold SettingsSpec.with_clean_url.
    destruct (data !! "api_url") as [v|] eqn:Hv; [|by rewrite Hv].
    destruct v as [| | |url| |]; simpl; rewrite ?Hv; try done.
    by rewrite lookup_insert_eq, lookup_insert_ne.
Qed.

Example form_is_saved_clean :
  handle_app_settings SettingsFixtures.saving_world "radarr" POST true
    SettingsFixtures.submitted_form =
    (Returned (JDict (<["success" := JBool true]> ∅), 200%Z),
     [SaveSettings "radarr" SettingsFixtures.saved_form]).
Proof. vm_compute. reflexivity. Qed.

Lemma settings_saved_clean_witness :
  SaveSettings "radarr" SettingsFixtures.saved_form
    ∈ snd (handle_app_settings SettingsFixtures.saving_world "radarr" POST true
             SettingsFixtures.submitted_form) ∧
  snd (handle_app_settings SettingsFixtures.saving_world "radarr" POST true
         SettingsFixtures.submitted_form)
    = [SaveSettings "radarr" SettingsFixtures.saved_form] ∧
  SaveSettings "radarr" SettingsFixtures.saved_form
    = SaveSettings "radarr" (SettingsSpec.clean_form SettingsFixtures.submitted_form).
Proof.
  assert (Hin : SaveSettings "radarr" SettingsFixtures.saved_form
                  ∈ snd (handle_app_settings SettingsFixtures.saving_world "radarr" POST
                           true SettingsFixtures.submitted_form))
    by (rewrite form_is_saved_clean; apply list_elem_of_here).
  split; [exact Hin|].
  destruct (settings_saved_clean SettingsFixtures.saving_world "radarr" POST true
              SettingsFixtures.submitted_form
              (SaveSettings "radarr" SettingsFixtures.saved_form) Hin)
    as (Hcalls & _ & _ & _ & Hsaved & _).
  split; assumption.
Defined.

End settings_routes.

(** ** Saving the general settings *)
Section general_settings.
Import Prowlarr GeneralSettings.

Lemma align_auth_flags_other (data : gmap string jvalue) (key : string) :
  key ≠ "local_access_bypass" → key ≠ "proxy_auth_bypass" →
  align_auth_flags data !! key = data !! key.
Proof.
  intros Hl Hp. unfold align_auth_flags.
  destruct (default JNull (data !! "auth_mode")) as [| | |mode| |]; try done.
  repeat case_match; try done; by rewrite !lookup_insert_ne.
Qed.

Lemma align_auth_flags_mode (data : gmap string jvalue) (mode : string) :
  data !! "auth_mode" = Some (JStr mode) →
  mode ∈ ["local_bypass"; "no_login"; "login"] →
  align_auth_flags data !! "local_access_bypass"
    = Some (JBool (String.eqb mode "local_bypass")) ∧
  align_auth_flags data !! "proxy_auth_bypass"
    = Some (JBool (String.eqb mode "no_login")).
Proof.
  intros Hmode Hin. unfold align_auth_flags. rewrite Hmode. simpl.
  repeat (apply elem_of_cons in Hin as [->|Hin]);
    [| | |by apply elem_of_nil in Hin]; simpl;
    (split; [by rewrite lookup_insert_ne, lookup_insert_eq|by rewrite lookup_insert_eq]).
Qed.

Lemma check_timezone_spec (w : world) (data data' : gmap string jvalue)
    (timezone_changed : option string) :
  check_timezone w data = Returned (data', timezone_changed) →
  (∀ key, key ≠ "timezone" → data' !! key = data !! key) ∧
  data' !! "timezone" = (λ tz, JStr (get_safe_timezone w tz)) <$> data !! "timezone" ∧
  ∀ tz, timezone_changed = Some tz →
    ∃ new_timezone current_settings,
      data !! "timezone" = Some new_timezone ∧
      tz = get_safe_timezone w new_timezone ∧
      load_settings w = Returned current_settings ∧
      default (JStr "UTC") (current_settings !! "timezone") ≠ JStr tz.
Proof.
  unfold check_timezone. intros Hcheck.
  destruct (data !! "timezone") as [new_timezone|] eqn:Hnew.
  2:{ injection Hcheck as <- <-. rewrite Hnew. by repeat split. }
  destruct (load_settings w) as [current_settings|e] eqn:Hload; [|done].
  simpl in Hcheck. injection Hcheck as <- <-. repeat split.
  - intros key Hkey. repeat case_match; by rewrite ?lookup_insert_ne.
  - simpl. destruct new_timezone as [| | |tz| |]; try by rewrite lookup_insert_eq.
    destruct (String.eqb tz _) eqn:Heq; [|by rewrite lookup_insert_eq].
    apply String.eqb_eq in Heq. by rewrite Hnew, <- Heq.
  - intros tz Htz. exists new_timezone, current_settings.
    destruct (default (JStr "UTC") (current_settings !! "timezone"))
      as [| | |current| |] eqn:Hcur; try (injection Htz as <-; by repeat split).
    destruct (String.eqb current _) eqn:Heq; [done|].
    injection Htz as <-. repeat split; try done.
    intros [= ->]. by rewrite String.eqb_refl in Heq.
Qed.

(** What the calls of a request are: nothing, a save that did not
    succeed, or a save that did with everything that follows it. *)
Lemma save_general_settings_calls (w : world) (is_json : bool)
    (data : gmap string jvalue) :
  snd (save_general_settings w is_json data) = [] ∨
  ∃ data' timezone_changed,
    is_json = true ∧
    check_timezone w (align_auth_flags data) = Returned (data', timezone_changed) ∧
    (snd (save_general_settings w is_json data) = [SaveSettings data'] ∧
     save_settings w data' ≠ Returned true ∨
     save_settings w data' = Returned true ∧
     snd (save_general_settings w is_json data)
       = SaveSettings data' :: apply_change w timezone_changed ++
         update_expiration w data' ++ [UpdateLoggingLevels]).
Proof.
  unfold save_general_settings. destruct is_json; simpl; [|by left].
  destruct (check_timezone w (align_auth_flags data)) as [[data' changed]|e]; [|by left].
  right. exists data', changed. split; [done|]. split; [done|].
  destruct (save_settings w data') as [[|]|e]; simpl; [by right|by left..].
Qed.

Lemma saved_data (w : world) (is_json : bool) (data saved : gmap string jvalue) :
  SaveSettings saved ∈ snd (save_general_settings w is_json data) →
  ∃ timezone_changed,
    check_timezone w (align_auth_flags data) = Returned (saved, timezone_changed).
Proof.
  intros Hin.
  destruct (save_general_settings_calls w is_json data)
    as [Hnil|(data' & changed & _ & Hcheck & [[Hcalls _]|[_ Hcalls]])];
    rewrite ?Hnil, ?Hcalls in Hin.
  - by apply elem_of_nil in Hin.
  - apply list_elem_of_singleton in Hin as [= ->]. by exists changed.
  - apply elem_of_cons in Hin as [[= ->]|Hin]; [by exists changed|].
    exfalso. rewrite !elem_of_app in Hin. destruct Hin as [Hin|[Hin|Hin]].
    + unfold apply_change in Hin. destruct changed; [|by apply elem_of_nil in Hin].
      apply elem_of_cons in Hin as [?|Hin]; [done|].
      repeat case_match; by (apply list_elem_of_singleton in Hin || apply elem_of_nil in Hin).
    + unfold update_expiration in Hin.
      repeat case_match; by (apply list_elem_of_singleton in Hin || apply elem_of_nil in Hin).
    + by apply list_elem_of_singleton in Hin.
Qed.

(** X24. Whatever bypass flags a form carries, the general settings that
    are saved for one of the three login modes carry the flags of that
    mode: local bypass only for [local_bypass], proxy bypass only for
    [no_login], so never both. *)
Theorem saved_flags_follow_auth_mode (w : world) (is_json : bool)
    (data saved : gmap string jvalue) (mode : string) :
  SaveSettings saved ∈ snd (save_general_settings w is_json data) →
  data !! "auth_mode" = Some (JStr mode) →
  mode ∈ ["local_bypass"; "no_login"; "login"] →
  saved !! "auth_mode" = Some (JStr mode) ∧
  saved !! "local_access_bypass" = Some (JBool (String.eqb mode "local_bypass")) ∧
  saved !! "proxy_auth_bypass" = Some (JBool (String.eqb mode "no_login")) ∧
  ¬ (saved !! "local_access_bypass" = Some (JBool true) ∧
     saved !! "proxy_auth_bypass" = Some (JBool true)).
Proof.
  intros Hin Hmode Hknown.
  apply saved_data in Hin as [changed Hcheck].
  apply check_timezone_spec in Hcheck as (Hother & _ & _).
  destruct (align_auth_flags_mode data mode Hmode Hknown) as [Hlocal Hproxy].
  rewrite !Hother, align_auth_flags_other, Hlocal, Hproxy by done.
  repeat split; try done.
  intros [[= Hl] [= Hp]].
  apply String.eqb_eq in Hl. subst mode. done.
Qed.

Example form_is_saved :
  snd (save_general_settings GeneralFixtures.saving_world true
         GeneralFixtures.submitted_form)
    = [SaveSettings GeneralFixtures.saved_form; ApplyTimezone "Europe/Paris";
       RefreshTimezoneFormatters; UpdateLockExpiration 24; UpdateLoggingLevels].
Proof. vm_compute. reflexivity. Qed.

Lemma saved_flags_follow_auth_mode_witness :
  SaveSettings GeneralFixtures.saved_form
    ∈ snd (save_general_settings GeneralFixtures.saving_world true
             GeneralFixtures.submitted_form) ∧
  GeneralFixtures.submitted_form !! "local_access_bypass" = Some (JBool true) ∧
  GeneralFixtures.saved_form !! "auth_mode" = Some (JStr "no_login") ∧
  GeneralFixtures.saved_form !! "local_access_bypass" = Some (JBool false) ∧
  GeneralFixtures.saved_form !! "proxy_auth_bypass" = Some (JBool true).
Proof.
  assert (Hin : SaveSettings GeneralFixtures.saved_form
                  ∈ snd (save_general_settings GeneralFixtures.saving_world true
                           GeneralFixtures.submitted_form))
    by (rewrite form_is_saved; apply list_elem_of_here).
  split; [exact Hin|]. split; [reflexivity|].
  destruct (saved_flags_follow_auth_mode GeneralFixtures.saving_world true
              GeneralFixtures.submitted_form GeneralFixtures.saved_form "no_login" Hin)
    as (Hmode & Hlocal & Hproxy & _).
  - reflexivity.
  - apply list_elem_of_further, list_elem_of_here.
  - repeat split; assumption.
Defined.

(** X25. The timezone that is saved is the validated one: a form with a
    timezone is saved with [get_safe_timezone] of it, a form without one
    is saved without one, and every entry other than the timezone and the
    two bypass flags is saved as submitted. *)
Theorem saved_timezone_is_validated (w : world) (is_json : bool)
    (data saved : gmap string jvalue) :
  SaveSettings saved ∈ snd (save_general_settings w is_json data) →
  saved !! "timezone" = (λ tz, JStr (get_safe_timezone w tz)) <$> data !! "timezone" ∧
  ∀ key, key ≠ "timezone" → key ≠ "local_access_bypass" → key ≠ "proxy_auth_bypass" →
    saved !! key = data !! key.
Proof.
  intros Hin. apply saved_data in Hin as [changed Hcheck].
  apply check_timezone_spec in Hcheck as (Hother & Htz & _). split.
  - by rewrite Htz, align_auth_flags_other.
  - intros key ???. by rewrite Hother, align_auth_flags_other.
Qed.

Lemma saved_timezone_is_validated_witness :
  SaveSettings GeneralFixtures.saved_form
    ∈ snd (save_general_settings GeneralFixtures.saving_world true
             GeneralFixtures.submitted_form) ∧
  GeneralFixtures.saved_form !! "timezone"
    = (λ tz, JStr (get_safe_timezone GeneralFixtures.saving_world tz))
        <$> GeneralFixtures.submitted_form !! "timezone" ∧
  ∀ key, key ≠ "timezone" → key ≠ "local_access_bypass" → key ≠ "proxy_auth_bypass" →
    GeneralFixtures.saved_form !! key = GeneralFixtures.submitted_form !! key.
Proof.
  assert (Hin : SaveSettings GeneralFixtures.saved_form
                  ∈ snd (save_general_settings GeneralFixtures.saving_world true
                           GeneralFixtures.submitted_form))
    by (rewrite form_is_saved; apply list_elem_of_here).
  split; [exact Hin|].
  exact (saved_timezone_is_validated GeneralFixtures.saving_world true
           GeneralFixtures.submitted_form GeneralFixtures.saved_form Hin).
Defined.

(** X26. Nothing is applied before the settings are stored: whenever the
    request makes any call besides the save, the save came first and
    succeeded, and the update of the logging levels comes last. *)
Theorem effects_only_after_successful_save (w : world) (is_json : bool)
    (data : gmap string jvalue) (c : call) :
  c ∈ snd (save_general_settings w is_json data) →
  (∀ saved, c ≠ SaveSettings saved) →
  ∃ saved between,
    snd (save_general_settings w is_json data)
      = SaveSettings saved :: between ++ [UpdateLoggingLevels] ∧
    save_settings w saved = Returned true ∧
    is_json = true.
Proof.
  intros Hin Hc.
  destruct (save_general_settings_calls w is_json data)
    as [Hnil|(data' & changed & Hjson & _ & [[Hcalls _]|[Hsaved Hcalls]])].
  - rewrite Hnil in Hin. by apply elem_of_nil in Hin.
  - rewrite Hcalls in Hin. apply list_elem_of_singleton in Hin. by destruct (Hc data').
  - exists data', (apply_change w changed ++ update_expiration w data').
    by rewrite Hcalls, <- app_assoc.
Qed.

Lemma effects_only_after_successful_save_witness :
  UpdateLockExpiration 24
    ∈ snd (save_general_settings GeneralFixtures.saving_world true
             GeneralFixtures.submitted_form) ∧
  ∃ saved between,
    snd (save_general_settings GeneralFixtures.saving_world true
           GeneralFixtures.submitted_form)
      = SaveSettings saved :: between ++ [UpdateLoggingLevels] ∧
    save_settings GeneralFixtures.saving_world saved = Returned true ∧
    true = true.
Proof.
  assert (Hin : UpdateLockExpiration 24
                  ∈ snd (save_general_settings GeneralFixtures.saving_world true
                           GeneralFixtures.submitted_form))
    by (rewrite form_is_saved; do 3 apply list_elem_of_further; apply list_elem_of_here).
  split; [exact Hin|].
  apply (effects_only_after_successful_save GeneralFixtures.saving_world true
           GeneralFixtures.submitted_form (UpdateLockExpiration 24) Hin).
  intros saved. discriminate.
Defined.

(** X27. The timezone is applied only when it changes: an applied
    timezone is the validated timezone of the form, it is the one that
    was saved, and it differs from the timezone of the stored settings
    (UTC when they have none). *)
Theorem timezone_applied_only_when_changed (w : world) (is_json : bool)
    (data : gmap string jvalue) (tz : string) :
  ApplyTimezone tz ∈ snd (save_general_settings w is_json data) →
  ∃ new_timezone current_settings saved,
    data !! "timezone" = Some new_timezone ∧
    tz = get_safe_timezone w new_timezone ∧
    SaveSettings saved ∈ snd (save_general_settings w is_json data) ∧
    saved !! "timezone" = Some (JStr tz) ∧
    load_settings w = Returned current_settings ∧
    default (JStr "UTC") (current_settings !! "timezone") ≠ JStr tz.
Proof.
  intros Hin.
  destruct (save_general_settings_calls w is_json data)
    as [Hnil|(data' & changed & _ & Hcheck & [[Hcalls _]|[_ Hcalls]])];
    rewrite ?Hnil, ?Hcalls in Hin.
  - by apply elem_of_nil in Hin.
  - by apply list_elem_of_singleton in Hin.
  - apply elem_of_cons in Hin as [?|Hin]; [done|].
    assert (Hchanged : changed = Some tz).
    { rewrite !elem_of_app in Hin. destruct Hin as [Hin|[Hin|Hin]].
      - unfold apply_change in Hin. destruct changed; [|by apply elem_of_nil in Hin].
        apply elem_of_cons in Hin as [[= ->]|Hin]; [done|].
        repeat case_match;
          by (apply list_elem_of_singleton in Hin || apply elem_of_nil in Hin).
      - unfold update_expiration in Hin.
        repeat case_match;
          by (apply list_elem_of_singleton in Hin || apply elem_of_nil in Hin).
      - by apply list_elem_of_singleton in Hin. }
    apply check_timezone_spec in Hcheck as (_ & Htz & Hdiff).
    destruct (Hdiff tz Hchanged) as (new & cur & Hnew & -> & Hload & Hne).
    rewrite align_auth_flags_other in Hnew by done.
    rewrite align_auth_flags_other, Hnew in Htz by done.
    exists new, cur, data'. rewrite Hcalls.
    repeat split; try done. apply list_elem_of_here.
Qed.

Lemma timezone_applied_only_when_changed_witness :
  ApplyTimezone "Europe/Paris"
    ∈ snd (save_general_settings GeneralFixtures.saving_world true
             GeneralFixtures.submitted_form) ∧
  ∃ new_timezone current_settings saved,
    GeneralFixtures.submitted_form !! "timezone" = Some new_timezone ∧
    "Europe/Paris" = get_safe_timezone GeneralFixtures.saving_world new_timezone ∧
    SaveSettings saved
      ∈ snd (save_general_settings GeneralFixtures.saving_world true
               GeneralFixtures.submitted_form) ∧
    saved !! "timezone" = Some (JStr "Europe/Paris") ∧
    load_settings GeneralFixtures.saving_world = Returned current_settings ∧
    default (JStr "UTC") (current_settings !! "timezone") ≠ JStr "Europe/Paris".
Proof.
  assert (Hin : ApplyTimezone "Europe/Paris"
                  ∈ snd (save_general_settings GeneralFixtures.saving_world true
                           GeneralFixtures.submitted_form))
    by (rewrite form_is_saved; apply list_elem_of_further, list_elem_of_here).
  split; [exact Hin|].
  exact (timezone_applied_only_when_changed GeneralFixtures.saving_world true
           GeneralFixtures.submitted_form "Europe/Paris" Hin).
Defined.

(** X28. The lock expiration is only ever set to a positive number of
    hours, the integer value of the form's [stateful_management_hours];
    a form without that entry, or with one that is no integer, leaves the
    expiration alone. *)
Theorem lock_expiration_is_positive (w : world) (is_json : bool)
    (data : gmap string jvalue) (hours : Z) :
  UpdateLockExpiration hours ∈ snd (save_general_settings w is_json data) →
  (0 < hours)%Z ∧
  ∃ v, data !! "stateful_management_hours" = Some v ∧ py_int w v = Returned hours.
Proof.
  intros Hin.
  destruct (save_general_settings_calls w is_json data)
    as [Hnil|(data' & changed & _ & Hcheck & [[Hcalls _]|[_ Hcalls]])];
    rewrite ?Hnil, ?Hcalls in Hin.
  - by apply elem_of_nil in Hin.
  - by apply list_elem_of_singleton in Hin.
  - apply elem_of_cons in Hin as [?|Hin]; [done|].
    apply check_timezone_spec in Hcheck as (Hother & _ & _).
    rewrite !elem_of_app in Hin. destruct Hin as [Hin|[Hin|Hin]].
    + unfold apply_change in Hin. destruct changed; [|by apply elem_of_nil in Hin].
      apply elem_of_cons in Hin as [?|Hin]; [done|].
      repeat case_match;
        by (apply list_elem_of_singleton in Hin || apply elem_of_nil in Hin).
    + unfold update_expiration in Hin.
      rewrite Hother, align_auth_flags_other in Hin by done.
      destruct (data !! "stateful_management_hours") as [v|] eqn:Hv; simpl in Hin.
      2:{ by apply elem_of_nil in Hin. }
      destruct (py_int w v) as [new_hours|e] eqn:Hint; [|by apply elem_of_nil in Hin].
      destruct (0 <? new_hours)%Z eqn:Hpos; [|by apply elem_of_nil in Hin].
      apply list_elem_of_singleton in Hin as [= ->].
      split; [lia|]. by exists v.
    + by apply list_elem_of_singleton in Hin.
Qed.

Lemma lock_expiration_is_positive_witness :
  UpdateLockExpiration 24
    ∈ snd (save_general_settings GeneralFixtures.saving_world true
             GeneralFixtures.submitted_form) ∧
  (0 < 24)%Z ∧
  ∃ v, GeneralFixtures.submitted_form !! "stateful_management_hours" = Some v ∧
       py_int GeneralFixtures.saving_world v = Returned 24%Z.
Proof.
  assert (Hin : UpdateLockExpiration 24
                  ∈ snd (save_general_settings GeneralFixtures.saving_world true
                           GeneralFixtures.submitted_form))
    by (rewrite form_is_saved; do 3 apply list_elem_of_further; apply list_elem_of_here).
  split; [exact Hin|].
  exact (lock_expiration_is_positive GeneralFixtures.saving_world true
           GeneralFixtures.submitted_form 24 Hin).
Defined.

End general_settings.
